(** * scripts/refactor_state.py: the state-field rewriting script

    A shallow embedding of the migration script and the properties of its
    substitution pass, of [process_file] and of the driver loop.

    A Python [str] is a sequence of code points: it is modelled as a list of
    [N].  File contents are the text that [f.read()] returns, that is after
    decoding; paths and console lines are [str] values as well. *)

From Stdlib Require Import String Ascii NArith.
From stdpp Require Import base option list gmap.

Local Open Scope N_scope.
Local Open Scope nat_scope.
Local Open Scope list_scope.

(** ** Python strings *)

Abbreviation char := N (only parsing).
Abbreviation str := (list N) (only parsing).

(** A string literal of the source. *)
Definition lit (s : string) : str :=
  N_of_ascii <$> list_ascii_of_string s.

(** [s.startswith(p)] *)
Fixpoint startswith (s p : str) {struct p} : bool :=
  match p with
  | [] => true
  | a :: p' =>
      match s with
      | [] => false
      | b :: s' => N.eqb a b && startswith s' p'
      end
  end.

(** [s.endswith(p)] *)
Definition endswith (s p : str) : bool :=
  startswith (reverse s) (reverse p).

(** [old in s] *)
Fixpoint contains (s old : str) : bool :=
  startswith s old ||
  match s with
  | [] => false
  | _ :: s' => contains s' old
  end.

(** The start indices of all the occurrences of [old] in [s], counted from
    [i], in increasing order. *)
Fixpoint occurrences_from (i : nat) (s old : str) : list nat :=
  (if startswith s old then [i] else []) ++
  match s with
  | [] => []
  | _ :: s' => occurrences_from (S i) s' old
  end.

Definition occurrences (s old : str) : list nat := occurrences_from 0 s old.

(** [s.replace(old, new)] for a non-empty [old]: a scan from the left; where
    [old] starts, [new] is emitted and the scan resumes behind the occurrence
    ([skip] counts the characters of the occurrence still to pass over),
    elsewhere the character is kept. *)
Fixpoint replace_scan (old new : str) (skip : nat) (s : str) : str :=
  match s with
  | [] => []
  | c :: s' =>
      match skip with
      | S k => replace_scan old new k s'
      | O =>
          if startswith s old
          then new ++ replace_scan old new (length old - 1) s'
          else c :: replace_scan old new 0 s'
      end
  end.

(** [s.replace(old, new)]; an empty [old] matches before every character and
    at the end. *)
Definition replace (s old new : str) : str :=
  match old with
  | [] => new ++ flat_map (λ c, c :: new) s
  | _ :: _ => replace_scan old new 0 s
  end.



(** ** The replacement table *)

(** [replacements]: a dict literal, iterated by [items()] in insertion
    order. *)
Definition replacements : list (str * str) :=
  [ (lit "state.product_service", lit "state.commerce.product");
    (lit "state.inventory_service", lit "state.commerce.inventory");
    (lit "state.pricing_service", lit "state.commerce.pricing");
    (lit "state.transaction_service", lit "state.commerce.transactions");
    (lit "state.buylist_service", lit "state.commerce.buylist");
    (lit "state.holds_service", lit "state.commerce.holds");
    (lit "state.payment_service", lit "state.commerce.payments");
    (lit "state.tax_service", lit "state.commerce.taxes");
    (lit "state.returns_service", lit "state.commerce.returns");
    (lit "state.trade_in_protection_service", lit "state.commerce.trade_in");
    (lit "state.audit_service", lit "state.system.audit");
    (lit "state.event_service", lit "state.system.events");
    (lit "state.barcode_service", lit "state.system.barcode");
    (lit "state.receipt_service", lit "state.system.receipts");
    (lit "state.invoice_service", lit "state.system.invoices");
    (lit "state.label_service", lit "state.system.labels");
    (lit "state.cash_drawer_service", lit "state.system.cash_drawer");
    (lit "state.printer_service", lit "state.system.printers");
    (lit "state.catalog_lookup_service", lit "state.system.catalog");
    (lit "state.serialized_inventory_service", lit "state.system.serialized");
    (lit "state.location_service", lit "state.system.locations");
    (lit "state.reporting_service", lit "state.system.reporting");
    (lit "state.email_service", lit "state.system.email");
    (lit "state.sms_service", lit "state.system.sms");
    (lit "state.notification_scheduler", lit "state.system.notification_scheduler")
  ].

(** The loop [for old, new in table: new_content = new_content.replace(old, new)]
    started from [content]. *)
Definition substitute (table : list (str * str)) (content : str) : str :=
  fold_left (λ new_content '(old, new), replace new_content old new) table content.


(** The substitution pass of [process_file]. *)
Definition substitution_pass (content : str) : str :=
  substitute replacements content.


(** ** Exceptions, the file system and the console *)

(** The exceptions that the file operations of the script raise; all of them
    are subclasses of [Exception]. *)
Inductive exn :=
| FileNotFoundError (path : str)
| IsADirectoryError (path : str)
| NotADirectoryError (path : str)
| PermissionError (path : str)
| UnicodeDecodeError (reason : str)
| OSError (reason : str).

(** The result of running a statement: it completes or it raises. *)
Inductive outcome (A : Type) :=
| Return (a : A)
| Raise (e : exn).
Arguments Return {A} a.
Arguments Raise {A} e.

(** What happens when a file is opened with mode ['w'] and written. *)
Inductive write_behaviour :=
| WriteOk
| OpenFails (e : exn)
| WriteFails (e : exn) (remains : str).

(** A regular file: [on_read] is what [open(path, 'r', encoding='utf-8')]
    followed by [read()] yields, the decoded text or the exception raised;
    [WriteFails e remains] is a failure after the truncating open, which leaves
    the text [remains] in the file. *)
Record file := File {
  on_read : outcome str;
  on_write : write_behaviour
}.

(** A directory holds the names that [os.listdir] enumerates, in its order. *)
Inductive node :=
| Dir (entries : list str)
| Reg (f : file).

Inductive event :=
| EvPrint (line : str)
| EvRead (path : str)
| EvWrite (path : str) (data : str).

(** The state of a run: the file system and what the run did so far, oldest
    event first.  [EvRead] is an attempt to open and read a file, [EvWrite]
    an attempt to open it for writing and to write [data]. *)
Record world := World {
  fs : gmap (list N) node;
  trace : list event
}.

(** Statements: state passing with exceptions. *)
Definition io (A : Type) : Type := world → outcome A * world.

#[global] Instance io_ret : MRet io := λ A a w, (Return a, w).

#[global] Instance io_bind : MBind io := λ A B k m w,
  match m w with
  | (Return a, w') => k a w'
  | (Raise e, w') => (Raise e, w')
  end.

(** [try: body except Exception as e: handler e] *)
Definition try_except {A} (body : io A) (handler : exn → io A) : io A := λ w,
  match body w with
  | (Return a, w') => (Return a, w')
  | (Raise e, w') => handler e w'
  end.

(** [for x in l: body x] *)
Fixpoint for_each {A} (l : list A) (body : A → io unit) : io unit :=
  match l with
  | [] => mret ()
  | x :: l' => body x ;; for_each l' body
  end.

Definition emit (ev : event) : io unit := λ w,
  (Return (), World (fs w) (trace w ++ [ev])).

Definition print (line : str) : io unit := emit (EvPrint line).

(** What opening [path] for reading and reading it all yields. *)
Definition read_outcome (files : gmap (list N) node) (path : str) : outcome str :=
  match files !! path with
  | None => Raise (FileNotFoundError path)
  | Some (Dir _) => Raise (IsADirectoryError path)
  | Some (Reg f) => on_read f
  end.

(** What opening [path] with mode ['w'] and writing [data] yields, and the
    files afterwards; a path that has no file yet gets one. *)
Definition write_outcome (files : gmap (list N) node) (path data : str)
  : outcome unit * gmap (list N) node :=
  match files !! path with
  | None => (Return (), <[path := Reg (File (Return data) WriteOk)]> files)
  | Some (Dir _) => (Raise (IsADirectoryError path), files)
  | Some (Reg f) =>
      match on_write f with
      | WriteOk => (Return (), <[path := Reg (File (Return data) WriteOk)]> files)
      | OpenFails e => (Raise e, files)
      | WriteFails e remains =>
          (Raise e, <[path := Reg (File (Return remains) (on_write f))]> files)
      end
  end.

(** [with open(path, 'r', encoding='utf-8') as f: content = f.read()] *)
Definition read_text (path : str) : io str := λ w,
  (read_outcome (fs w) path, World (fs w) (trace w ++ [EvRead path])).

(** [with open(path, 'w', encoding='utf-8') as f: f.write(data)] *)
Definition write_text (path : str) (data : str) : io unit := λ w,
  let '(r, files) := write_outcome (fs w) path data in
  (r, World files (trace w ++ [EvWrite path data])).

(** [os.path.exists(path)] *)
Definition os_path_exists (path : str) : io bool := λ w,
  (Return (bool_decide (is_Some (fs w !! path))), w).

(** [os.listdir(path)] *)
Definition os_listdir (path : str) : io (list str) := λ w,
  match fs w !! path with
  | None => (Raise (FileNotFoundError path), w)
  | Some (Reg _) => (Raise (NotADirectoryError path), w)
  | Some (Dir entries) => (Return entries, w)
  end.

(** ** The script *)

Section Script.

(** [str(e)], the text of an exception, and [os.path.join] are Python's. *)
Variable str_of_exn : exn → str.
Variable os_path_join : str → str → str.

Definition process_file (filepath : str) : io unit :=
  print (lit "Processing " ++ filepath ++ lit "...") ;;
  try_except
    (content ← read_text filepath;
     let new_content := substitution_pass content in
     if bool_decide (content ≠ new_content) then
       write_text filepath new_content ;;
       print (lit "Updated " ++ filepath)
     else
       print (lit "No changes in " ++ filepath))
    (λ e, print (lit "Error processing " ++ filepath ++ lit ": " ++ str_of_exn e)).

Definition handlers_legacy : str :=
  lit "d:\Projects\VaultSync\src\api\handlers_legacy.rs".

Definition handlers_dir : str :=
  lit "d:\Projects\VaultSync\src\api\handlers".

(** The loop over [os.listdir(handlers_dir)] that appends to [targets]. *)
Definition append_handlers (targets : list str) (filenames : list str) : list str :=
  fold_left
    (λ targets filename,
       if endswith filename (lit ".rs")
       then targets ++ [os_path_join handlers_dir filename]
       else targets)
    filenames targets.

(** The loop [for target in targets]. *)
Definition process_targets (targets : list str) : io unit :=
  for_each targets (λ target,
    found ← os_path_exists target;
    if found : bool then process_file target
    else print (lit "File not found: " ++ target)).

(** The module body after the table. *)
Definition script : io unit :=
  let targets := [handlers_legacy] in
  filenames ← os_listdir handlers_dir;
  let targets := append_handlers targets filenames in
  process_targets targets.

(** The console lines of the script, as events of the trace. *)
Definition processing_line (p : str) : event :=
  EvPrint (lit "Processing " ++ p ++ lit "...").
Definition updated_line (p : str) : event :=
  EvPrint (lit "Updated " ++ p).
Definition no_changes_line (p : str) : event :=
  EvPrint (lit "No changes in " ++ p).
Definition error_line (p : str) (e : exn) : event :=
  EvPrint (lit "Error processing " ++ p ++ lit ": " ++ str_of_exn e).
Definition not_found_line (p : str) : event :=
  EvPrint (lit "File not found: " ++ p).

End Script.

(** ** Tokens that meet

    Every token of the table, old or new, starts with [stem]. *)
Definition stem : str := lit "state.".

Definition old_tokens : list str := fst <$> replacements.
Definition new_tokens : list str := snd <$> replacements.

(** One of [a] and [b] is a prefix of the other. *)
Definition compat (a b : str) : bool := startswith a b || startswith b a.

(** Some old-token occurs in [s]. *)
Definition has_old_token (s : str) : bool := existsb (contains s) old_tokens.

(** The end of [new] and the start of [r] spell [stem] together: [new] ends
    with "s" and [r] starts with "tate.", or [new] ends with "st" and [r]
    starts with "ate.". *)
Definition joinable (new r : str) : bool :=
  (endswith new (lit "s") && startswith r (lit "tate."))
  || (endswith new (lit "st") && startswith r (lit "ate.")).

(** Some occurrence of an old-token in [s] is immediately followed by a text
    that the new-token of that occurrence joins with. *)
Fixpoint cascades (s : str) : bool :=
  existsb (λ '(old, new), startswith s old && joinable new (drop (length old) s))
          replacements
  || match s with
     | [] => false
     | _ :: s' => cascades s'
     end.

(** The checks on the table that the facts on overlaps rest on: all tokens
    start with [stem]; no old-token goes on, from an offset inside it, with
    [stem] or a part of it; two old-tokens, and an old-token and a
    new-token, never start alike; a new-token goes on with a part of [stem]
    only by its last character "s" or its last two "st". *)
Definition check_stem : bool :=
  forallb (λ '(old, new), startswith old stem && startswith new stem) replacements.

Definition check_old_offsets : bool :=
  forallb (λ old,
     forallb (λ k, negb (compat (drop k old) stem)) (seq 1 (length old - 1)))
    old_tokens.

Definition check_old_old : bool :=
  forallb (λ u, forallb (λ t, bool_decide (u = t) || negb (compat u t)) old_tokens)
    old_tokens.

Definition check_old_new : bool :=
  forallb (λ u, forallb (λ t, negb (compat u t)) new_tokens) old_tokens.

Definition check_new_offsets : bool :=
  forallb (λ new,
     forallb (λ j, negb (compat (drop j new) stem)
                   || bool_decide (drop j new = lit "s")
                   || bool_decide (drop j new = lit "st"))
       (seq 1 (length new - 1)))
    new_tokens.

Definition check_keys : bool :=
  bool_decide (NoDup old_tokens).

(** ** A small file system for the examples *)

Definition example_str_of_exn (e : exn) : str :=
  match e with
  | FileNotFoundError path => lit "[Errno 2] No such file or directory: " ++ path
  | IsADirectoryError path => lit "[Errno 21] Is a directory: " ++ path
  | NotADirectoryError path => lit "[Errno 20] Not a directory: " ++ path
  | PermissionError path => lit "[Errno 13] Permission denied: " ++ path
  | UnicodeDecodeError reason => reason
  | OSError reason => reason
  end.

Definition example_join (directory name : str) : str :=
  directory ++ lit "\" ++ name.

Definition example_content : str :=
  lit "let x = state.product_service.get();".

Definition example_invalid : exn :=
  UnicodeDecodeError (lit "'utf-8' codec can't decode byte 0xff in position 0").

(** The handlers directory lists a file to rewrite, a file of another
    extension, a file that is not UTF-8, a read-only file and a name that
    has no file; the legacy file does not exist. *)
Definition example_files : gmap (list N) node :=
  <[ handlers_dir := Dir [lit "product.rs"; lit "notes.txt"; lit "binary.rs";
                          lit "locked.rs"; lit "gone.rs"] ]>
  (<[ example_join handlers_dir (lit "product.rs") :=
        Reg (File (Return example_content) WriteOk) ]>
  (<[ example_join handlers_dir (lit "binary.rs") :=
        Reg (File (Raise example_invalid) WriteOk) ]>
  (<[ example_join handlers_dir (lit "locked.rs") :=
        Reg (File (Return example_content)
                  (OpenFails (PermissionError
                                (example_join handlers_dir (lit "locked.rs"))))) ]>
   ∅))).

Definition example_world : world := World example_files [].

(** The lines printed, in order. *)
Definition console (events : list event) : list str :=
  omap (λ ev, match ev with EvPrint line => Some line | _ => None end) events.

(** * Properties *)

(** ** Facts on the string operations *)

Section StringFacts.

Implicit Types s p old new x y : str.

Lemma startswith_prefix s p : startswith s p = true ↔ p `prefix_of` s.
Proof.
  revert s. induction p as [|a p IH]; intros s; simpl.
  - split; [intros _; apply prefix_nil | done].
  - destruct s as [|b s].
    + split; [done | intros H; by apply prefix_nil_not in H].
    + rewrite andb_true_iff, N.eqb_eq, IH. split.
      * intros [-> H]. by apply prefix_cons.
      * intros H. split; [by apply prefix_cons_inv_1 in H | by apply prefix_cons_inv_2 in H].
Qed.

Lemma startswith_app p s : startswith (p ++ s) p = true.
Proof. apply startswith_prefix. by apply prefix_app_r. Qed.

Lemma startswith_false_prefix s p : startswith s p = false ↔ ¬ p `prefix_of` s.
Proof. rewrite <- startswith_prefix. by destruct (startswith s p). Qed.

Lemma startswith_length s p : startswith s p = true → length p ≤ length s.
Proof. rewrite startswith_prefix. apply prefix_length. Qed.

Lemma startswith_take_drop s p :
  startswith s p = true → s = p ++ drop (length p) s.
Proof.
  rewrite startswith_prefix. intros [k ->]. by rewrite drop_app_length.
Qed.

Lemma contains_infix s old :
  contains s old = true ↔ ∃ a b, s = a ++ old ++ b.
Proof.
  induction s as [|c s IH]; simpl.
  - rewrite orb_false_r, startswith_prefix. split.
    + intros [k Hk]. by exists [], k.
    + intros (a & b & H). symmetry in H.
      apply app_eq_nil in H as [-> H]. apply app_eq_nil in H as [-> _].
      apply prefix_nil.
  - rewrite orb_true_iff, startswith_prefix, IH. split.
    + intros [[k Hk] | (a & b & ->)].
      * by exists [], k.
      * by exists (c :: a), b.
    + intros (a & b & H). destruct a as [|d a]; simpl in H.
      * left. by exists b.
      * right. injection H as _ ->. by exists a, b.
Qed.

Lemma contains_drop s old i :
  contains s old = false → startswith (drop i s) old = false.
Proof.
  revert i. induction s as [|c s IH]; intros i; simpl.
  - rewrite orb_false_r. by rewrite drop_nil.
  - rewrite orb_false_iff. intros [H1 H2]. destruct i; simpl; auto.
Qed.

Lemma contains_nil_r s : contains s [] = true.
Proof. by destruct s. Qed.

Lemma occurrences_from_shift i s old :
  occurrences_from i s old = (λ j, i + j) <$> occurrences_from 0 s old.
Proof.
  revert i. induction s as [|c s IH]; intros i; simpl.
  - destruct (startswith [] old); simpl; [by rewrite Nat.add_0_r | done].
  - rewrite fmap_app, (IH (S i)), (IH 1), <- list_fmap_compose.
    f_equal.
    + destruct (startswith (c :: s) old); simpl; [by rewrite Nat.add_0_r | done].
    + apply list_fmap_ext. intros _ j _. simpl. lia.
Qed.

Lemma elem_of_occurrences s old i :
  i ∈ occurrences s old ↔ i ≤ length s ∧ startswith (drop i s) old = true.
Proof.
  unfold occurrences. revert i. induction s as [|c s IH]; intros i; simpl.
  - rewrite app_nil_r, drop_nil. destruct (startswith [] old) eqn:E.
    + rewrite list_elem_of_singleton. split; [intros ->; auto | intros []; lia].
    + rewrite elem_of_nil. split; [done | intros []; done].
  - rewrite elem_of_app, occurrences_from_shift, list_elem_of_fmap.
    split.
    + intros [H | (j & -> & Hj)].
      * destruct (startswith (c :: s) old) eqn:E; [|by apply elem_of_nil in H].
        apply list_elem_of_singleton in H as ->. split; [lia | done].
      * apply IH in Hj as []. split; [lia | done].
    + intros [Hi H]. destruct i as [|i]; simpl in H.
      * left. rewrite H. by apply list_elem_of_singleton.
      * right. exists i. split; [done |]. apply IH. split; [lia | done].
Qed.

Lemma occurrences_nil_contains s old :
  occurrences s old = [] ↔ contains s old = false.
Proof.
  unfold occurrences. generalize 0. induction s as [|c s IH]; intros i; simpl.
  - rewrite app_nil_r, orb_false_r. by destruct (startswith [] old).
  - rewrite orb_false_iff, <- (IH (S i)).
    destruct (startswith (c :: s) old); simpl; intuition congruence.
Qed.

(** *** [replace] *)

Lemma replace_scan_skip old new k s :
  replace_scan old new k s = replace_scan old new 0 (drop k s).
Proof.
  revert k. induction s as [|c s IH]; intros [|k]; simpl; auto.
Qed.

Lemma replace_nil old new : replace [] old new = match old with [] => new | _ => [] end.
Proof. destruct old; simpl; [by rewrite app_nil_r | done]. Qed.

Lemma replace_hit s old new :
  old ≠ [] → startswith s old = true →
  replace s old new = new ++ replace (drop (length old) s) old new.
Proof.
  intros Hold H. destruct old as [|a old]; [done |]. unfold replace.
  destruct s as [|c s]; [done |].
  cbn [replace_scan]. rewrite H, replace_scan_skip.
  simpl. by rewrite Nat.sub_0_r.
Qed.

Lemma replace_miss c s old new :
  startswith (c :: s) old = false →
  replace (c :: s) old new = c :: replace s old new.
Proof.
  intros H. destruct old as [|a old]; [done |]. unfold replace.
  cbn [replace_scan]. by rewrite H.
Qed.

Lemma replace_app_hit s old new :
  old ≠ [] → replace (old ++ s) old new = new ++ replace s old new.
Proof.
  intros Hold. rewrite replace_hit by (done || apply startswith_app).
  by rewrite drop_app_length.
Qed.

(** A stretch [x] in which no occurrence of [old] starts is copied. *)
Lemma replace_keep x y old new :
  (∀ i, i < length x → startswith (drop i (x ++ y)) old = false) →
  replace (x ++ y) old new = x ++ replace y old new.
Proof.
  induction x as [|c x IH]; intros H; [done |].
  simpl. rewrite replace_miss.
  - f_equal. apply IH. intros i Hi. apply (H (S i)). simpl. lia.
  - apply (H 0). simpl. lia.
Qed.

Lemma replace_absent s old new :
  contains s old = false → replace s old new = s.
Proof.
  intros H. rewrite <- (app_nil_r s) at 1. rewrite replace_keep.
  - rewrite replace_nil. destruct old; [by rewrite contains_nil_r in H |].
    by rewrite app_nil_r.
  - intros i _. rewrite app_nil_r. by apply contains_drop.
Qed.

(** *** [count] *)






(** Where no occurrence of [old] lies across the end of [x], the scan of
    [x ++ y] is the scan of [x] followed by the scan of [y]. *)
Lemma replace_app_split x y old new :
  old ≠ [] →
  (∀ i, i < length x → length x < i + length old →
        startswith (drop i (x ++ y)) old = false) →
  replace (x ++ y) old new = replace x old new ++ replace y old new.
Proof.
  intros Hold. generalize (Nat.le_refl (length x)).
  generalize (length x) at 2. intros n. revert x.
  induction n as [|n IH]; intros x Hle H.
  { destruct x; [|simpl in Hle; lia].
    rewrite replace_nil. by destruct old. }
  destruct x as [|c x]; [rewrite replace_nil; by destruct old |].
  destruct (startswith ((c :: x) ++ y) old) eqn:E.
  - assert (length old ≤ length (c :: x)) as Hlen.
    { destruct (decide (length old ≤ length (c :: x))) as [|Hgt]; [done |].
      pose proof (H 0 ltac:(simpl; lia) ltac:(simpl in *; lia)) as H0.
      simpl in H0, E. congruence. }
    assert (startswith (c :: x) old = true) as E'.
    { apply startswith_prefix. apply startswith_prefix in E.
      destruct (prefix_weak_total old (c :: x) ((c :: x) ++ y)) as [|Hp];
        [done | by apply prefix_app_r | done |].
      apply prefix_length_eq in Hp; [by subst | done]. }
    rewrite (replace_hit _ old new Hold E), (replace_hit _ old new Hold E').
    rewrite drop_app_le by done. rewrite <- app_assoc. f_equal.
    assert (0 < length old) by (destruct old; [done | simpl; lia]).
    apply IH.
    + rewrite length_drop. simpl in *. lia.
    + intros i Hi1 Hi2. rewrite length_drop in Hi1, Hi2.
      rewrite <- drop_app_le by done. rewrite drop_drop.
      apply H; lia.
  - assert (startswith (c :: x) old = false) as E'.
    { apply startswith_false_prefix. apply startswith_false_prefix in E.
      intros Hp. apply E. by apply prefix_app_r. }
    simpl. simpl in E. rewrite (replace_miss _ _ _ _ E), (replace_miss _ _ _ _ E').
    simpl. f_equal. apply IH; [simpl in Hle; lia |].
    intros i Hi1 Hi2. apply (H (S i)); simpl; lia.
Qed.

(** [replace] keeps the first characters on which [old] and [new] agree. *)
Lemma take_replace s old new n :
  old ≠ [] → take n old = take n new →
  n ≤ length old → n ≤ length new →
  take n (replace s old new) = take n s.
Proof.
  intros Hold. revert n. induction s as [|c s IH]; intros n Heq Hn1 Hn2.
  { rewrite replace_nil. by destruct old. }
  destruct (startswith (c :: s) old) eqn:E.
  - rewrite (replace_hit _ old new Hold E).
    rewrite (startswith_take_drop _ _ E) at 2.
    by rewrite !take_app_le, Heq by done.
  - rewrite (replace_miss _ _ _ _ E). destruct n as [|n]; [done |].
    simpl. f_equal. apply IH; [|lia..].
    apply (f_equal (take n)) in Heq. rewrite !take_take in Heq.
    by rewrite !Nat.min_l in Heq by lia.
Qed.

Lemma startswith_take s p n :
  length p ≤ n → startswith (take n s) p = startswith s p.
Proof.
  revert s n. induction p as [|a p IH]; intros s n Hn; [done |].
  destruct n as [|n]; [simpl in Hn; lia |].
  destruct s as [|b s]; [done |]. simpl. f_equal. apply IH. simpl in Hn; lia.
Qed.

Lemma endswith_suffix s p : endswith s p = true ↔ p `suffix_of` s.
Proof.
  unfold endswith. by rewrite startswith_prefix, suffix_prefix_reverse.
Qed.

Lemma contains_occurrence s old :
  contains s old = true → ∃ i, startswith (drop i s) old = true.
Proof.
  intros H. destruct (occurrences s old) as [|i l] eqn:E.
  - apply occurrences_nil_contains in E. congruence.
  - exists i. apply (elem_of_occurrences s old i). rewrite E. by left.
Qed.

End StringFacts.

(** ** Facts on the substitution pass *)

Lemma substitute_cons old new table c :
  substitute ((old, new) :: table) c = substitute table (replace c old new).
Proof. done. Qed.


(** A table none of whose old-tokens occurs leaves the content as it is. *)
Lemma substitute_absent table (c : str) :
  (∀ old new, (old, new) ∈ table → contains c old = false) →
  substitute table c = c.
Proof.
  induction table as [|[old new] table IH]; intros H; [done |].
  rewrite substitute_cons, replace_absent.
  - apply IH. intros o n Hin. apply (H o n). by right.
  - apply (H old new). by left.
Qed.


(** ** Facts on the tokens of the table *)

Lemma forallb_elem_of {A} (f : A → bool) (l : list A) x :
  forallb f l = true → x ∈ l → f x = true.
Proof.
  intros H Hin. apply list_elem_of_In in Hin.
  by apply (proj1 (forallb_forall f l) H).
Qed.

Lemma elem_of_seq_offsets k n : 0 < k < n → k ∈ seq 1 (n - 1).
Proof. intros H. apply elem_of_seq. lia. Qed.

Lemma old_token_elem old new : (old, new) ∈ replacements → old ∈ old_tokens.
Proof. intros H. apply list_elem_of_fmap. by exists (old, new). Qed.

Lemma new_token_elem old new : (old, new) ∈ replacements → new ∈ new_tokens.
Proof. intros H. apply list_elem_of_fmap. by exists (old, new). Qed.

Lemma compat_prefix a b :
  compat a b = true ↔ a `prefix_of` b ∨ b `prefix_of` a.
Proof.
  unfold compat. rewrite orb_true_iff, !startswith_prefix. tauto.
Qed.

(** A prefix of [x ++ y] is a prefix of [x] or goes on from [x]. *)
Lemma prefix_app_compat (u x y : str) :
  u `prefix_of` x ++ y → compat u x = true.
Proof.
  intros H. apply compat_prefix.
  apply (prefix_weak_total u x (x ++ y)); [done | by apply prefix_app_r].
Qed.

Lemma prefix_app_longer (u x y : str) :
  u `prefix_of` x ++ y → length x < length u →
  x = take (length x) u ∧ drop (length x) u `prefix_of` y.
Proof.
  intros H Hlen.
  destruct (prefix_weak_total u x (x ++ y)) as [Hux|[v ->]];
    [done | by apply prefix_app_r | |].
  - apply prefix_length in Hux. lia.
  - rewrite take_app_length, drop_app_length. split; [done |].
    by apply prefix_app_inv in H.
Qed.

Lemma old_token_stem old new :
  (old, new) ∈ replacements → stem `prefix_of` old.
Proof.
  intros H. assert (check_stem = true) as Hc by by vm_compute.
  apply (forallb_elem_of _ _ _ Hc) in H. simpl in H.
  apply andb_true_iff in H as [H _]. by apply startswith_prefix.
Qed.

Lemma new_token_stem old new :
  (old, new) ∈ replacements → stem `prefix_of` new.
Proof.
  intros H. assert (check_stem = true) as Hc by by vm_compute.
  apply (forallb_elem_of _ _ _ Hc) in H. simpl in H.
  apply andb_true_iff in H as [_ H]. by apply startswith_prefix.
Qed.

Lemma old_token_nonempty old new : (old, new) ∈ replacements → old ≠ [].
Proof.
  intros H ->. apply old_token_stem in H. by apply prefix_nil_not in H.
Qed.

Lemma old_token_offsets old new k :
  (old, new) ∈ replacements → 0 < k < length old →
  compat (drop k old) stem = false.
Proof.
  intros H Hk. assert (check_old_offsets = true) as Hc by by vm_compute.
  apply old_token_elem in H.
  apply (forallb_elem_of _ _ _ Hc) in H.
  apply (forallb_elem_of _ _ k) in H; [|by apply elem_of_seq_offsets].
  by apply negb_true_iff in H.
Qed.

Lemma old_tokens_differ u u' t t' :
  (u, u') ∈ replacements → (t, t') ∈ replacements → u ≠ t →
  compat u t = false.
Proof.
  intros Hu Ht Hne. assert (check_old_old = true) as Hc by by vm_compute.
  apply old_token_elem in Hu, Ht.
  apply (forallb_elem_of _ _ _ Hc) in Hu.
  apply (forallb_elem_of _ _ _ Hu) in Ht.
  rewrite bool_decide_eq_false_2 in Ht by done.
  by apply negb_true_iff in Ht.
Qed.

Lemma old_new_differ u u' t t' :
  (u, u') ∈ replacements → (t, t') ∈ replacements → compat u t' = false.
Proof.
  intros Hu Ht. assert (check_old_new = true) as Hc by by vm_compute.
  apply old_token_elem in Hu. apply new_token_elem in Ht.
  apply (forallb_elem_of _ _ _ Hc) in Hu.
  apply (forallb_elem_of _ _ _ Hu) in Ht.
  by apply negb_true_iff in Ht.
Qed.


Lemma new_token_offsets old new j :
  (old, new) ∈ replacements → 0 < j < length new →
  compat (drop j new) stem = true →
  drop j new = lit "s" ∨ drop j new = lit "st".
Proof.
  intros H Hj Hcompat. assert (check_new_offsets = true) as Hc by by vm_compute.
  apply new_token_elem in H.
  apply (forallb_elem_of _ _ _ Hc) in H.
  apply (forallb_elem_of _ _ j) in H; [|by apply elem_of_seq_offsets].
  cbv beta in H. rewrite Hcompat in H. simpl in H.
  apply orb_true_iff in H as [H|H]; apply bool_decide_eq_true in H; auto.
Qed.

Lemma NoDup_fst_functional {A B} (l : list (A * B)) x y1 y2 :
  NoDup (l.*1) → (x, y1) ∈ l → (x, y2) ∈ l → y1 = y2.
Proof.
  induction l as [|[a b] l IH]; csimpl; intros Hnd H1 H2.
  - by apply elem_of_nil in H1.
  - apply NoDup_cons in Hnd as [Hnotin Hnd].
    apply elem_of_cons in H1 as [H1|H1], H2 as [H2|H2].
    + congruence.
    + injection H1 as -> ->. destruct Hnotin.
      apply list_elem_of_fmap. by exists (a, y2).
    + injection H2 as -> ->. destruct Hnotin.
      apply list_elem_of_fmap. by exists (a, y1).
    + by apply IH.
Qed.

Lemma replacements_functional old new new' :
  (old, new) ∈ replacements → (old, new') ∈ replacements → new = new'.
Proof.
  assert (NoDup old_tokens) as Hnd.
  { assert (check_keys = true) as Hc by by vm_compute.
    by apply bool_decide_eq_true in Hc. }
  intros H1 H2. by apply (NoDup_fst_functional replacements old new new').
Qed.

Lemma compat_sym a b : compat a b = compat b a.
Proof. unfold compat. apply orb_comm. Qed.

(** No old-token starts before a token and ends inside or behind it. *)
Lemma no_straddle (a w r : str) u u' i :
  (u, u') ∈ replacements → stem `prefix_of` w →
  i < length a → length a < i + length u →
  startswith (drop i (a ++ w ++ r)) u = false.
Proof.
  intros Hu [w' ->] Hi1 Hi2. apply startswith_false_prefix. intros Hpre.
  rewrite drop_app_le in Hpre by lia.
  apply prefix_app_longer in Hpre as [_ Hd]; [|rewrite length_drop; lia].
  rewrite length_drop, <- app_assoc in Hd.
  apply prefix_app_compat in Hd.
  rewrite (old_token_offsets u u') in Hd; [done.. | lia].
Qed.

(** No other old-token starts inside an old-token. *)
Lemma no_start_in_old (r : str) u u' t t' j :
  (u, u') ∈ replacements → (t, t') ∈ replacements → u ≠ t →
  j < length t → startswith (drop j (t ++ r)) u = false.
Proof.
  intros Hu Ht Hne Hj. apply startswith_false_prefix. intros Hpre.
  destruct j as [|j].
  - apply prefix_app_compat in Hpre.
    by rewrite (old_tokens_differ u u' t t') in Hpre.
  - rewrite drop_app_le in Hpre by lia.
    assert (stem `prefix_of` drop (S j) t ++ r) as Hs
      by (etrans; [by apply (old_token_stem u u') | done]).
    apply prefix_app_compat in Hs. rewrite compat_sym in Hs.
    rewrite (old_token_offsets t t') in Hs; [done.. | lia].
Qed.

(** An old-token starts inside a new-token only at its last "s" or "st",
    and goes on behind it. *)
Lemma start_in_new (r : str) u u' t t' j :
  (u, u') ∈ replacements → (t, t') ∈ replacements →
  j < length t' → startswith (drop j (t' ++ r)) u = true →
  length t' ≤ j + 2 ∧ joinable t' r = true.
Proof.
  intros Hu Ht Hj Hpre. apply startswith_prefix in Hpre.
  destruct j as [|j].
  { apply prefix_app_compat in Hpre.
    by rewrite (old_new_differ u u' t t') in Hpre. }
  rewrite drop_app_le in Hpre by lia.
  assert (stem `prefix_of` drop (S j) t' ++ r) as Hs
    by (etrans; [by apply (old_token_stem u u') | done]).
  pose proof (prefix_app_compat _ _ _ Hs) as Hc. rewrite compat_sym in Hc.
  assert (t' = take (S j) t' ++ drop (S j) t') as Hsplit
    by by rewrite take_drop.
  assert (length (drop (S j) t') = length t' - S j) as Hlen
    by apply length_drop.
  unfold joinable.
  destruct (new_token_offsets t t' (S j) Ht ltac:(lia) Hc) as [Hd|Hd];
    rewrite Hd in Hs, Hsplit, Hlen;
    (split; [unfold lit in Hlen; simpl in Hlen; lia |]); apply orb_true_iff;
    [left | right]; apply andb_true_iff; split.
  - apply endswith_suffix. by exists (take (S j) t').
  - apply startswith_prefix.
    change stem with (lit "s" ++ lit "tate.") in Hs.
    by apply prefix_app_inv in Hs.
  - apply endswith_suffix. by exists (take (S j) t').
  - apply startswith_prefix.
    change stem with (lit "st" ++ lit "ate.") in Hs.
    by apply prefix_app_inv in Hs.
Qed.

(** *** One [replace] across a token *)

Lemma replace_across_old (a r : str) u u' t t' :
  (u, u') ∈ replacements → (t, t') ∈ replacements → u ≠ t →
  replace (a ++ t ++ r) u u' = replace a u u' ++ t ++ replace r u u'.
Proof.
  intros Hu Ht Hne.
  rewrite replace_app_split; [|by apply (old_token_nonempty u u') |].
  - f_equal. apply replace_keep. intros j Hj.
    by apply (no_start_in_old r u u' t t').
  - intros i Hi1 Hi2. apply (no_straddle a t r u u'); [done | | done..].
    by apply (old_token_stem t t').
Qed.

Lemma replace_across_hit (a r : str) t t' :
  (t, t') ∈ replacements →
  replace (a ++ t ++ r) t t' = replace a t t' ++ t' ++ replace r t t'.
Proof.
  intros Ht. pose proof (old_token_nonempty t t' Ht) as Hne.
  rewrite replace_app_split; [|done |].
  - f_equal. by apply replace_app_hit.
  - intros i Hi1 Hi2. apply (no_straddle a t r t t'); [done | | done..].
    by apply (old_token_stem t t').
Qed.

Lemma replace_across_new (a r : str) u u' t t' :
  (u, u') ∈ replacements → (t, t') ∈ replacements →
  joinable t' r = false →
  replace (a ++ t' ++ r) u u' = replace a u u' ++ t' ++ replace r u u'.
Proof.
  intros Hu Ht Hjoin.
  rewrite replace_app_split; [|by apply (old_token_nonempty u u') |].
  - f_equal. apply replace_keep. intros j Hj.
    destruct (startswith (drop j (t' ++ r)) u) eqn:E; [|done].
    apply (start_in_new r u u' t t') in E as [_ E]; [congruence | done..].
  - intros i Hi1 Hi2. apply (no_straddle a t' r u u'); [done | | done..].
    by apply (new_token_stem t t').
Qed.

Lemma take_stem_replace (r : str) u u' n :
  (u, u') ∈ replacements → n ≤ length stem →
  take n (replace r u u') = take n r.
Proof.
  intros Hu Hn.
  pose proof (old_token_stem u u' Hu) as [v Hv].
  pose proof (new_token_stem u u' Hu) as [v' Hv'].
  apply take_replace.
  - by apply (old_token_nonempty u u').
  - rewrite Hv, Hv'. by rewrite !take_app_le by done.
  - rewrite Hv, length_app. lia.
  - rewrite Hv', length_app. lia.
Qed.

Lemma startswith_replace (r p : str) u u' :
  (u, u') ∈ replacements → length p ≤ length stem →
  startswith (replace r u u') p = startswith r p.
Proof.
  intros Hu Hp.
  rewrite <- (startswith_take (replace r u u') p (length stem)) by done.
  rewrite (take_stem_replace r u u') by done.
  by apply startswith_take.
Qed.

Lemma joinable_replace (new r : str) u u' :
  (u, u') ∈ replacements →
  joinable new (replace r u u') = joinable new r.
Proof.
  intros Hu. unfold joinable.
  by rewrite !(startswith_replace r _ u u') by (done || (vm_compute; lia)).
Qed.

(** *** The whole loop across a token *)

Lemma sub_cons_head {A} (x : A) (l k : list A) : x :: l ⊆ k → x ∈ k.
Proof. intros H. apply H. by left. Qed.

Lemma sub_cons_tail {A} (x : A) (l k : list A) : x :: l ⊆ k → l ⊆ k.
Proof. intros H y Hy. apply H. by right. Qed.

Lemma joinable_substitute (table : list (str * str)) (new r : str) :
  table ⊆ replacements →
  joinable new (substitute table r) = joinable new r.
Proof.
  revert r. induction table as [|[u u'] table IH]; intros r Hsub; [done |].
  rewrite substitute_cons, IH by by apply sub_cons_tail in Hsub.
  apply joinable_replace. by apply sub_cons_head in Hsub.
Qed.

Lemma substitute_across_new (table : list (str * str)) (a r : str) t t' :
  table ⊆ replacements → (t, t') ∈ replacements →
  joinable t' r = false →
  substitute table (a ++ t' ++ r) =
  substitute table a ++ t' ++ substitute table r.
Proof.
  revert a r. induction table as [|[u u'] table IH]; intros a r Hsub Ht Hj;
    [done |].
  pose proof (sub_cons_head _ _ _ Hsub) as Hu.
  pose proof (sub_cons_tail _ _ _ Hsub) as Hsub'.
  rewrite !substitute_cons, (replace_across_new a r u u' t t') by done.
  apply IH; [done.. |]. by rewrite joinable_replace.
Qed.

Lemma substitute_across_old (table : list (str * str)) (a r : str) t t' :
  table ⊆ replacements → (t, t') ∈ table →
  joinable t' r = false →
  substitute table (a ++ t ++ r) =
  substitute table a ++ t' ++ substitute table r.
Proof.
  revert a r. induction table as [|[u u'] table IH]; intros a r Hsub Ht Hj.
  { by apply elem_of_nil in Ht. }
  pose proof (sub_cons_head _ _ _ Hsub) as Hu.
  pose proof (sub_cons_tail _ _ _ Hsub) as Hsub'.
  pose proof (Hsub _ Ht) as Ht'.
  rewrite !substitute_cons.
  destruct (decide (u = t)) as [->|Hne].
  - rewrite (replacements_functional t u' t') by done.
    rewrite (replace_across_hit a r t t') by done.
    apply (substitute_across_new table _ _ t t'); [done.. |].
    by rewrite joinable_replace.
  - rewrite (replace_across_old a r u u' t t') by done.
    apply IH; [done | | by rewrite joinable_replace].
    apply elem_of_cons in Ht as [Ht|Ht]; [congruence | done].
Qed.

(** *** Contents cut at their first old-token *)

Lemma has_old_token_false (s : str) :
  has_old_token s = false ↔
  ∀ old new, (old, new) ∈ replacements → contains s old = false.
Proof.
  unfold has_old_token. split.
  - intros H old new Hin. apply old_token_elem in Hin.
    destruct (contains s old) eqn:E; [|done].
    rewrite <- H. symmetry. apply existsb_exists. exists old.
    split; [by apply list_elem_of_In | done].
  - intros H. destruct (existsb (contains s) old_tokens) eqn:E; [|done].
    apply existsb_exists in E as (old & Hin & Hc).
    apply list_elem_of_In, list_elem_of_fmap in Hin as ([o n] & -> & Hin).
    simpl in Hc. by rewrite (H o n Hin) in Hc.
Qed.

Lemma startswith_contains (s old : str) i :
  startswith (drop i s) old = true → contains s old = true.
Proof.
  intros H. destruct (contains s old) eqn:E; [done |].
  by rewrite contains_drop in H.
Qed.

Lemma first_token (c : str) :
  has_old_token c = false
  ∨ ∃ g t t' rest, (t, t') ∈ replacements ∧ c = g ++ t ++ rest
                   ∧ has_old_token g = false.
Proof.
  induction c as [|ch c IH]; [by left |].
  destruct (existsb (λ '(old, _), startswith (ch :: c) old) replacements) eqn:E.
  - right. apply existsb_exists in E as ([t t'] & Hin & Hs).
    apply list_elem_of_In in Hin.
    exists [], t, t', (drop (length t) (ch :: c)).
    split; [done |]. split; [|done]. by apply startswith_take_drop.
  - assert (∀ old new, (old, new) ∈ replacements →
                       startswith (ch :: c) old = false) as Hhead.
    { intros old new Hin. destruct (startswith (ch :: c) old) eqn:Hs; [|done].
      rewrite <- E. symmetry. apply existsb_exists. exists (old, new).
      split; [by apply list_elem_of_In | done]. }
    destruct IH as [IH | (g & t & t' & rest & Hin & -> & Hg)].
    + left. apply has_old_token_false. intros old new Hin. simpl.
      rewrite (Hhead old new Hin). simpl.
      by apply (proj1 (has_old_token_false c) IH old new).
    + right. exists (ch :: g), t, t', rest. split; [done |]. split; [done |].
      apply has_old_token_false. intros old new Hin'. simpl.
      rewrite (proj1 (has_old_token_false g) Hg old new Hin'), orb_false_r.
      apply startswith_false_prefix. intros Hp.
      pose proof (Hhead old new Hin') as Hh.
      apply startswith_false_prefix in Hh. apply Hh.
      change (ch :: g ++ t ++ rest) with ((ch :: g) ++ t ++ rest).
      by apply prefix_app_r.
Qed.

Lemma cascades_unfold (s : str) :
  cascades s =
  existsb (λ '(old, new), startswith s old && joinable new (drop (length old) s))
          replacements
  || match s with
     | [] => false
     | _ :: s' => cascades s'
     end.
Proof. by destruct s. Qed.

Lemma cascades_drop (s : str) i : cascades s = false → cascades (drop i s) = false.
Proof.
  revert i. induction s as [|ch s IH]; intros i H; [by rewrite drop_nil |].
  destruct i as [|i]; [done |]. rewrite cascades_unfold in H.
  apply orb_false_iff in H as [_ H]. by apply IH.
Qed.

Lemma cascades_head (s : str) t t' :
  cascades s = false → (t, t') ∈ replacements → startswith s t = true →
  joinable t' (drop (length t) s) = false.
Proof.
  intros H Hin Hs.
  assert (existsb (λ '(old, new),
             startswith s old && joinable new (drop (length old) s))
            replacements = false) as Hex.
  { rewrite cascades_unfold in H. by apply orb_false_iff in H as [H _]. }
  destruct (joinable t' (drop (length t) s)) eqn:Hj; [|done].
  rewrite <- Hex. symmetry. apply existsb_exists. exists (t, t').
  split; [by apply list_elem_of_In |]. by rewrite Hs, Hj.
Qed.

Lemma cascades_split (g rest : str) t t' :
  cascades (g ++ t ++ rest) = false → (t, t') ∈ replacements →
  joinable t' rest = false ∧ cascades rest = false.
Proof.
  intros H Hin. split.
  - apply (cascades_drop _ (length g)) in H. rewrite drop_app_length in H.
    apply (cascades_head _ t t') in H; [|done | apply startswith_app].
    by rewrite drop_app_length in H.
  - apply (cascades_drop _ (length g + length t)) in H.
    by rewrite <- drop_drop, !drop_app_length in H.
Qed.

(** Behind a part without old-token, a new-token and a part without
    old-token that it does not join with, no old-token occurs. *)
Lemma no_token_join (g r : str) t t' :
  (t, t') ∈ replacements →
  has_old_token g = false → has_old_token r = false →
  joinable t' r = false →
  has_old_token (g ++ t' ++ r) = false.
Proof.
  intros Ht Hg Hr Hj. apply has_old_token_false. intros u u' Hu.
  destruct (contains (g ++ t' ++ r) u) eqn:E; [|done]. exfalso.
  apply contains_occurrence in E as [i Hi].
  destruct (decide (i < length g)) as [Hlt|Hge].
  - destruct (decide (length g < i + length u)) as [Hs|Hs].
    + rewrite (no_straddle g t' r u u') in Hi; [done.. | | done | done].
      by apply (new_token_stem t t').
    + rewrite drop_app_le in Hi by lia.
      assert (startswith (drop i g) u = true) as Hin.
      { apply startswith_prefix. apply startswith_prefix in Hi.
        destruct (prefix_weak_total u (drop i g) (drop i g ++ t' ++ r))
          as [|Hp]; [done | by apply prefix_app_r | done |].
        apply prefix_length_eq in Hp; [by subst |].
        rewrite length_drop. lia. }
      apply startswith_contains in Hin.
      by rewrite (proj1 (has_old_token_false g) Hg u u' Hu) in Hin.
  - rewrite drop_app_ge in Hi by lia.
    destruct (decide (i - length g < length t')) as [Hlt|Hge'].
    + apply (start_in_new r u u' t t') in Hi as [_ Hi]; [congruence | done..].
    + rewrite drop_app_ge in Hi by lia.
      apply startswith_contains in Hi.
      by rewrite (proj1 (has_old_token_false r) Hr u u' Hu) in Hi.
Qed.

(** On a content that does not cascade, every order of the table gives the
    result of the table order, and no old-token is left in it. *)
Lemma substitute_any_order (c : str) (table : list (str * str)) :
  cascades c = false → table ≡ₚ replacements →
  substitute table c = substitution_pass c
  ∧ has_old_token (substitute table c) = false.
Proof.
  generalize (Nat.le_refl (length c)). generalize (length c) at 2.
  intros n. revert c table.
  induction n as [|n IH]; intros c table Hlen Hc Hperm.
  - destruct c; [|simpl in Hlen; lia].
    assert (∀ t : list (str * str), t ⊆ replacements → substitute t [] = [])
      as Hnil.
    { intros t Ht. apply substitute_absent. intros old new Hin.
      apply (proj1 (has_old_token_false []) eq_refl old new). by apply Ht. }
    unfold substitution_pass. rewrite !Hnil; [done | done |].
    by rewrite Hperm.
  - assert (table ⊆ replacements) as Hsub by by rewrite Hperm.
    destruct (first_token c) as [Hfree | (g & t & t' & rest & Hin & -> & Hg)].
    + unfold substitution_pass. rewrite !substitute_absent; [done | |].
      * intros old new Ho. by apply (proj1 (has_old_token_false c) Hfree old new).
      * intros old new Ho. apply (proj1 (has_old_token_false c) Hfree old new).
        by apply Hsub.
    + destruct (cascades_split g rest t t' Hc Hin) as [Hj Hrest].
      assert (length rest ≤ n) as Hn.
      { pose proof (old_token_nonempty t t' Hin).
        rewrite !length_app in Hlen. destruct t; [done | simpl in Hlen; lia]. }
      assert (∀ tb : list (str * str), tb ⊆ replacements → substitute tb g = g)
        as Hgid.
      { intros tb Htb. apply substitute_absent. intros old new Ho.
        apply (proj1 (has_old_token_false g) Hg old new). by apply Htb. }
      destruct (IH rest table Hn Hrest Hperm) as [Heq Hno].
      unfold substitution_pass.
      rewrite (substitute_across_old table g rest t t'); [|done | | done].
      2: { by rewrite Hperm. }
      rewrite (substitute_across_old replacements g rest t t') by done.
      rewrite !Hgid by done. split.
      * by rewrite Heq.
      * apply (no_token_join g _ t t'); [done.. |].
        by rewrite joinable_substitute.
Qed.

(** *** Tokens in any surrounding *)

(** Whatever follows it, a new-token stays in place under a [replace]: an
    occurrence that starts at its last "s" or "st" is rewritten into a text
    that starts with these characters again. *)
Lemma replace_across_new_any (a r : str) u u' t t' :
  (u, u') ∈ replacements → (t, t') ∈ replacements →
  ∃ z, replace (a ++ t' ++ r) u u' = replace a u u' ++ t' ++ z.
Proof.
  intros Hu Ht.
  rewrite replace_app_split; [|by apply (old_token_nonempty u u') |]; last first.
  { intros i Hi1 Hi2. apply (no_straddle a t' r u u'); [done | | done..].
    by apply (new_token_stem t t'). }
  assert (2 ≤ length t') as Hlen.
  { destruct (new_token_stem t t' Ht) as [v ->]. rewrite length_app.
    assert (length stem = 6) as -> by done. lia. }
  set (body := take (length t' - 2) t').
  set (tail := drop (length t' - 2) t').
  assert (t' = body ++ tail) as Hsplit by (symmetry; apply take_drop).
  assert (length body = length t' - 2) as Hbody
    by (unfold body; rewrite length_take; lia).
  assert (length tail = 2) as Htail
    by (unfold tail; rewrite length_drop; lia).
  exists (drop 2 (replace (tail ++ r) u u')). f_equal.
  rewrite Hsplit at 1. rewrite <- app_assoc, replace_keep.
  - rewrite Hsplit at 1. rewrite <- app_assoc. f_equal.
    rewrite <- (take_drop 2 (replace (tail ++ r) u u')) at 1. f_equal.
    rewrite (take_stem_replace _ u u') by (done || (vm_compute; lia)).
    by rewrite take_app_length' by done.
  - intros j Hj. rewrite app_assoc, <- Hsplit.
    destruct (startswith (drop j (t' ++ r)) u) eqn:E; [|done].
    apply (start_in_new r u u' t t') in E as [E _]; [lia | done.. | lia].
Qed.

Lemma substitute_across_new_any (table : list (str * str)) (a r : str) t t' :
  table ⊆ replacements → (t, t') ∈ replacements →
  ∃ z, substitute table (a ++ t' ++ r) = substitute table a ++ t' ++ z.
Proof.
  revert a r. induction table as [|[u u'] table IH]; intros a r Hsub Ht.
  { by exists r. }
  pose proof (sub_cons_head _ _ _ Hsub) as Hu.
  pose proof (sub_cons_tail _ _ _ Hsub) as Hsub'.
  rewrite !substitute_cons.
  destruct (replace_across_new_any a r u u' t t' Hu Ht) as [z ->].
  by apply IH.
Qed.

(** Every occurrence of an old-token becomes its new-token, behind the
    rewritten text that precedes it. *)
Lemma substitute_across_old_any (table : list (str * str)) (a r : str) t t' :
  table ⊆ replacements → (t, t') ∈ table →
  ∃ z, substitute table (a ++ t ++ r) = substitute table a ++ t' ++ z.
Proof.
  revert a r. induction table as [|[u u'] table IH]; intros a r Hsub Ht.
  { by apply elem_of_nil in Ht. }
  pose proof (sub_cons_head _ _ _ Hsub) as Hu.
  pose proof (sub_cons_tail _ _ _ Hsub) as Hsub'.
  pose proof (Hsub _ Ht) as Ht'.
  rewrite !substitute_cons.
  destruct (decide (u = t)) as [->|Hne].
  - rewrite (replacements_functional t u' t') by done.
    rewrite (replace_across_hit a r t t') by done.
    by apply (substitute_across_new_any table _ _ t t').
  - rewrite (replace_across_old a r u u' t t') by done.
    apply IH; [done |].
    apply elem_of_cons in Ht as [Ht|Ht]; [congruence | done].
Qed.

(** ** The claims on the substitution pass *)

Lemma for_all_replacements (P : str → str → bool) :
  forallb (λ '(u, u'), P u u') replacements = true →
  ∀ u u', (u, u') ∈ replacements → P u u' = true.
Proof. intros H u u' Hin. by apply (forallb_elem_of _ _ (u, u') H). Qed.





(** C2, as amended: no old-token of the table is a substring of another
    one, and on every content in which no occurrence of an old-token is
    immediately followed by a text that its new-token joins with ("tate."
    behind a new-token that ends with "s", "ate." behind one that ends with
    "st"), every order of the 25 pairs gives the content that the table
    order gives. *)
Theorem order_is_irrelevant_without_cascade :
  (∀ u u' t t', (u, u') ∈ replacements → (t, t') ∈ replacements →
                u ≠ t → contains t u = false)
  ∧ length replacements = 25
  ∧ (∀ (c : str) (table : list (str * str)),
       cascades c = false → table ≡ₚ replacements →
       substitute table c = substitute replacements c).
Proof.
  split; [|split; [done |]].
  - intros u u' t t' Hu Ht Hne.
    assert (forallb (λ '(u, _),
              forallb (λ '(t, _), bool_decide (u = t) || negb (contains t u))
                      replacements) replacements = true) as Hc by by vm_compute.
    apply (forallb_elem_of _ _ _ Hc) in Hu. cbv beta iota in Hu.
    apply (forallb_elem_of _ _ _ Hu) in Ht. cbv beta iota in Ht.
    rewrite bool_decide_eq_false_2 in Ht by done.
    by apply negb_true_iff in Ht.
  - intros c table Hc Hperm.
    by apply (substitute_any_order c table).
Qed.

Lemma email_in_table :
  (lit "state.email_service", lit "state.system.email") ∈ replacements.
Proof. apply list_elem_of_lookup. by exists 22. Qed.

Lemma sms_in_table :
  (lit "state.sms_service", lit "state.system.sms") ∈ replacements.
Proof. apply list_elem_of_lookup. by exists 23. Qed.

Lemma email_joins_nothing (r : str) :
  joinable (lit "state.system.email") r = false.
Proof.
  unfold joinable.
  assert (endswith (lit "state.system.email") (lit "s") = false) as ->
    by by vm_compute.
  assert (endswith (lit "state.system.email") (lit "st") = false) as ->
    by by vm_compute.
  done.
Qed.

(** C10: the pass maps "let x = state.product_service.get();" to
    "let x = state.commerce.product.get();"; and in a content that holds
    "state.email_service" and "state.sms_service", in either order, the one
    pass puts "state.system.email" and "state.system.sms" in their places,
    behind the rewritten text that precedes them. *)
Theorem examples_of_the_pass :
  substitution_pass (lit "let x = state.product_service.get();")
  = lit "let x = state.commerce.product.get();"
  ∧ substitution_pass (lit "send(state.email_service, state.sms_service)")
    = lit "send(state.system.email, state.system.sms)"
  ∧ (∀ a b c : str,
       ∃ z, substitution_pass
              (a ++ lit "state.email_service" ++ b ++ lit "state.sms_service" ++ c)
            = substitution_pass a ++ lit "state.system.email"
              ++ substitution_pass b ++ lit "state.system.sms" ++ z)
  ∧ (∀ a b c : str,
       ∃ z, substitution_pass
              (a ++ lit "state.sms_service" ++ b ++ lit "state.email_service" ++ c)
            = substitution_pass a ++ lit "state.system.sms" ++ z
              ++ lit "state.system.email" ++ substitution_pass c).
Proof.
  split; [by vm_compute |]. split; [by vm_compute |].
  unfold substitution_pass. split; intros a b c.
  - rewrite (substitute_across_old replacements a _ _ _ (reflexivity _)
               email_in_table (email_joins_nothing _)).
    destruct (substitute_across_old_any replacements b c _ _ (reflexivity _)
                sms_in_table) as [z ->].
    by exists z.
  - rewrite (app_assoc a), (app_assoc (a ++ _)), <- (app_assoc a).
    rewrite (substitute_across_old replacements _ c _ _ (reflexivity _)
               email_in_table (email_joins_nothing _)).
    destruct (substitute_across_old_any replacements a b _ _ (reflexivity _)
                sms_in_table) as [z ->].
    exists z. by rewrite <- !app_assoc.
Qed.

(** *** Contents on which a replacement makes a new occurrence *)

(** C1, as stated, fails: the first pass turns
    "state.holds_servicetate.product_service" into a content that holds
    the old-token "state.product_service", which the second pass rewrites. *)
Lemma second_pass_changes_content :
  let c := lit "state.holds_servicetate.product_service" in
  substitution_pass c = lit "state.commerce.holdstate.product_service"
  ∧ contains (substitution_pass c) (lit "state.product_service") = true
  ∧ substitution_pass (substitution_pass c)
    = lit "state.commerce.holdstate.commerce.product"
  ∧ substitution_pass (substitution_pass c) ≠ substitution_pass c.
Proof. by vm_compute. Qed.

(** C2, as stated, fails: on "state.holds_servicetate.sms_service" the
    table order rewrites the occurrence of "state.sms_service" that the
    replacement of "state.holds_service" makes, and the reverse order does
    not. *)
Lemma reverse_order_differs :
  let c := lit "state.holds_servicetate.sms_service" in
  reverse replacements ≡ₚ replacements
  ∧ substitute replacements c = lit "state.commerce.holdstate.system.sms"
  ∧ substitute (reverse replacements) c = lit "state.commerce.holdstate.sms_service"
  ∧ substitute (reverse replacements) c ≠ substitute replacements c.
Proof.
  split; [apply reverse_Permutation |]. by vm_compute.
Qed.


(** ** Facts on [process_file] and the driver *)

Arguments lit : simpl never.
Arguments substitution_pass : simpl never.

Section ScriptFacts.

Variable str_of_exn : exn → str.
Variable os_path_join : str → str → str.

Set Default Proof Using "Type".

(** [process_file] unfolded into its four ways through the [try] block. *)
Lemma process_file_unfold p w :
  process_file str_of_exn p w =
  let tr := trace w ++ [processing_line p; EvRead p] in
  match read_outcome (fs w) p with
  | Raise e => (Return (), World (fs w) (tr ++ [error_line str_of_exn p e]))
  | Return c =>
      if bool_decide (c ≠ substitution_pass c) then
        let data := substitution_pass c in
        match write_outcome (fs w) p data with
        | (Return _, files) =>
            (Return (), World files (tr ++ [EvWrite p data; updated_line p]))
        | (Raise e, files) =>
            (Return (), World files (tr ++ [EvWrite p data; error_line str_of_exn p e]))
        end
      else (Return (), World (fs w) (tr ++ [no_changes_line p]))
  end.
Proof.
  unfold process_file, print, emit, try_except, read_text, write_text,
    mbind, io_bind, processing_line, updated_line, no_changes_line, error_line.
  cbn [fs trace].
  destruct (read_outcome (fs w) p) as [c|e]; cbn [fs trace].
  - case_bool_decide; cbn [fs trace].
    + destruct (write_outcome (fs w) p (substitution_pass c)) as [[[]|e] files];
        cbn [fs trace]; by rewrite <- !app_assoc.
    + by rewrite <- !app_assoc.
  - by rewrite <- !app_assoc.
Qed.

Lemma process_file_returns p w : (process_file str_of_exn p w).1 = Return ().
Proof.
  rewrite process_file_unfold. cbn zeta.
  destruct (read_outcome (fs w) p); [|done].
  case_bool_decide; [|done].
  by destruct (write_outcome _ _ _) as [[[]|] ?].
Qed.

Lemma write_outcome_exists files p data q :
  is_Some (files !! p) →
  is_Some ((write_outcome files p data).2 !! q) ↔ is_Some (files !! q).
Proof.
  intros Hp. unfold write_outcome.
  destruct (files !! p) as [[entries|f]|] eqn:E; [done | | by destruct Hp].
  assert (∀ n, is_Some (<[p:=n]> files !! q) ↔ is_Some (files !! q)) as Hins.
  { intros n. rewrite lookup_insert. case_decide; [subst; by rewrite E |]; done. }
  destruct (on_write f); simpl; auto.
Qed.

Lemma read_outcome_exists files p c :
  read_outcome files p = Return c → is_Some (files !! p).
Proof. unfold read_outcome. by destruct (files !! p). Qed.

(** [process_file] neither creates nor removes a path. *)
Lemma process_file_exists p w q :
  is_Some (fs (process_file str_of_exn p w).2 !! q) ↔ is_Some (fs w !! q).
Proof.
  rewrite process_file_unfold. cbn zeta.
  destruct (read_outcome (fs w) p) as [c|e] eqn:Hr; [|done].
  case_bool_decide; [|done].
  pose proof (write_outcome_exists (fs w) p (substitution_pass c) q
                (read_outcome_exists _ _ _ Hr)) as Hw.
  by destruct (write_outcome _ _ _) as [[[]|] ?].
Qed.

Lemma process_targets_nil w : process_targets str_of_exn [] w = (Return (), w).
Proof. done. Qed.

Lemma process_targets_cons t ts w :
  process_targets str_of_exn (t :: ts) w =
  process_targets str_of_exn ts
    (if bool_decide (is_Some (fs w !! t))
     then (process_file str_of_exn t w).2
     else World (fs w) (trace w ++ [not_found_line t])).
Proof.
  unfold process_targets at 1. cbn [for_each].
  unfold mbind, io_bind, os_path_exists at 1.
  case_bool_decide.
  - pose proof (process_file_returns t w) as Hr.
    by destruct (process_file str_of_exn t w) as [[[]|] w'].
  - done.
Qed.



Lemma process_targets_exists ts w q :
  is_Some (fs (process_targets str_of_exn ts w).2 !! q) ↔ is_Some (fs w !! q).
Proof.
  revert w. induction ts as [|t ts IH]; intros w; [done |].
  rewrite process_targets_cons, IH.
  case_bool_decide; [apply process_file_exists | done].
Qed.

Lemma read_outcome_reg files p f :
  files !! p = Some (Reg f) → read_outcome files p = on_read f.
Proof. intros H. unfold read_outcome. by rewrite H. Qed.

Lemma process_file_same p w c :
  read_outcome (fs w) p = Return c →
  substitution_pass c = c →
  process_file str_of_exn p w =
    (Return (), World (fs w)
                  (trace w ++ [processing_line p; EvRead p; no_changes_line p])).
Proof.
  intros Hread Heq. rewrite process_file_unfold, Hread. cbn zeta.
  rewrite bool_decide_eq_false_2 by congruence. by rewrite <- app_assoc.
Qed.

Lemma process_file_changed p w c :
  read_outcome (fs w) p = Return c →
  substitution_pass c ≠ c →
  process_file str_of_exn p w =
    let data := substitution_pass c in
    let tr := trace w ++ [processing_line p; EvRead p; EvWrite p data] in
    match write_outcome (fs w) p data with
    | (Return _, files) => (Return (), World files (tr ++ [updated_line p]))
    | (Raise e, files) => (Return (), World files (tr ++ [error_line str_of_exn p e]))
    end.
Proof.
  intros Hread Hne. rewrite process_file_unfold, Hread. cbn zeta.
  rewrite bool_decide_eq_true_2 by congruence.
  destruct (write_outcome _ _ _) as [[[]|e] files]; by rewrite <- !app_assoc.
Qed.

Lemma process_file_read_fails p w e :
  read_outcome (fs w) p = Raise e →
  process_file str_of_exn p w =
    (Return (), World (fs w)
                  (trace w ++ [processing_line p; EvRead p; error_line str_of_exn p e])).
Proof.
  intros Hread. rewrite process_file_unfold, Hread. cbn zeta.
  by rewrite <- app_assoc.
Qed.

(** C4: [process_file] writes the file exactly when the substitution pass
    changed the content that was read.  If the new content equals the
    original, it prints "No changes in ..." and the files are as before, with
    no write in the trace; if it differs, the new content is written to the
    same path, and when that write succeeds the file holds the new content
    and "Updated ..." is printed. *)
Theorem process_file_writes_iff_changed p w f c :
  fs w !! p = Some (Reg f) →
  on_read f = Return c →
  (substitution_pass c = c →
   process_file str_of_exn p w =
     (Return (), World (fs w)
                   (trace w ++ [processing_line p; EvRead p; no_changes_line p])))
  ∧ (substitution_pass c ≠ c → on_write f = WriteOk →
     process_file str_of_exn p w =
       (Return (),
        World (<[p := Reg (File (Return (substitution_pass c)) WriteOk)]> (fs w))
              (trace w ++ [processing_line p; EvRead p;
                           EvWrite p (substitution_pass c); updated_line p])))
  ∧ (∃ evs, trace (process_file str_of_exn p w).2 = trace w ++ evs ∧
       ((∃ q data, EvWrite q data ∈ evs) ↔ substitution_pass c ≠ c)).
Proof.
  intros Hp Hr.
  assert (read_outcome (fs w) p = Return c) as Hread
    by by rewrite (read_outcome_reg _ _ f).
  split; [|split].
  - by apply process_file_same.
  - intros Hne Hw. rewrite (process_file_changed p w c) by done. cbn zeta.
    unfold write_outcome. rewrite Hp, Hw. by rewrite <- app_assoc.
  - destruct (decide (substitution_pass c = c)) as [Heq|Hne].
    + rewrite (process_file_same p w c) by done. cbn [snd trace].
      eexists. split; [done |]. split; [|done].
      intros (q & data & Hin). exfalso.
      apply list_elem_of_In in Hin. simpl in Hin.
      unfold processing_line, no_changes_line in Hin.
      destruct Hin as [Hin|[Hin|[Hin|[]]]]; discriminate.
    + rewrite (process_file_changed p w c) by done. cbn zeta.
      destruct (write_outcome _ _ _) as [[[]|e] files]; cbn [snd trace];
        rewrite <- app_assoc; eexists; (split; [done |]);
        (split; [done |]); intros _; do 2 eexists;
        apply list_elem_of_In; simpl; eauto.
Qed.

(** C5: on a content in which no old-token of the table occurs, the
    substitution pass is the identity, and [process_file] only prints: the
    files are as before and nothing is written. *)
Theorem process_file_without_old_token p w f c :
  fs w !! p = Some (Reg f) →
  on_read f = Return c →
  (∀ old new, (old, new) ∈ replacements → contains c old = false) →
  substitution_pass c = c
  ∧ process_file str_of_exn p w =
      (Return (), World (fs w)
                    (trace w ++ [processing_line p; EvRead p; no_changes_line p])).
Proof.
  intros Hp Hr Hno.
  assert (substitution_pass c = c) as Hid by by apply substitute_absent.
  split; [done |].
  apply (process_file_same p w c); [|done].
  by rewrite (read_outcome_reg _ _ f).
Qed.

(** C9: if opening, reading or decoding the file fails, [process_file] leaves
    the files as they are and writes nothing; a write is attempted only at
    the path itself, after the whole content was read and decoded, with the
    substituted content, and only when that differs from the original.  The
    files change only through such a write. *)
Theorem read_failure_leaves_file p w :
  (∀ e, read_outcome (fs w) p = Raise e →
        process_file str_of_exn p w =
          (Return (), World (fs w)
             (trace w ++ [processing_line p; EvRead p; error_line str_of_exn p e])))
  ∧ (∀ evs q data,
        trace (process_file str_of_exn p w).2 = trace w ++ evs →
        EvWrite q data ∈ evs →
        q = p ∧ ∃ c, read_outcome (fs w) p = Return c
                     ∧ data = substitution_pass c ∧ data ≠ c)
  ∧ (fs (process_file str_of_exn p w).2 ≠ fs w →
        ∃ c, read_outcome (fs w) p = Return c ∧ substitution_pass c ≠ c).
Proof.
  split; [apply process_file_read_fails |].
  destruct (read_outcome (fs w) p) as [c|e] eqn:Hread.
  - destruct (decide (substitution_pass c = c)) as [Heq|Hne].
    + rewrite (process_file_same p w c) by done. cbn [snd trace fs].
      split; [|done].
      intros evs q data Hevs Hin. apply app_inv_head in Hevs. subst evs.
      apply list_elem_of_In in Hin. simpl in Hin.
      unfold processing_line, no_changes_line in Hin.
      destruct Hin as [Hin|[Hin|[Hin|[]]]]; discriminate.
    + rewrite (process_file_changed p w c) by done. cbn zeta.
      split; [|by eauto].
      intros evs q data Hevs Hin.
      destruct (write_outcome _ _ _) as [[[]|e] files]; cbn [snd trace] in Hevs;
        rewrite <- app_assoc in Hevs; apply app_inv_head in Hevs; subst evs;
        apply list_elem_of_In in Hin; simpl in Hin;
        unfold processing_line, updated_line, error_line in Hin;
        (destruct Hin as [Hin|[Hin|[Hin|[Hin|[]]]]]; try discriminate);
        injection Hin as <- <-; (split; [done |]); by exists c.
  - rewrite (process_file_read_fails p w e) by done. cbn [snd trace fs].
    split; [|done].
    intros evs q data Hevs Hin. apply app_inv_head in Hevs. subst evs.
    apply list_elem_of_In in Hin. simpl in Hin.
    unfold processing_line, error_line in Hin.
    destruct Hin as [Hin|[Hin|[Hin|[]]]]; discriminate.
Qed.



Lemma append_handlers_filter targets filenames :
  append_handlers os_path_join targets filenames =
  targets ++ (os_path_join handlers_dir <$>
              filter (λ filename, endswith filename (lit ".rs")) filenames).
Proof.
  unfold append_handlers. revert targets.
  induction filenames as [|name filenames IH]; intros targets; simpl.
  - by rewrite app_nil_r.
  - rewrite IH, filter_cons. destruct (endswith name (lit ".rs")) eqn:E.
    + rewrite decide_True by done. by rewrite <- app_assoc.
    + rewrite decide_False; [done |]. by intros [].
Qed.

(** C8: the target list is the literal path followed by the entries of the
    handlers directory whose name ends with ".rs", each joined with the
    directory path, in the order of the enumeration; whether an entry is a
    regular file plays no part, and with no such entry the list is the
    literal path alone.  The driver runs on that list. *)
Theorem targets_are_legacy_then_rs_entries filenames w :
  fs w !! handlers_dir = Some (Dir filenames) →
  let rs := filter (λ filename, endswith filename (lit ".rs")) filenames in
  let targets := handlers_legacy :: (os_path_join handlers_dir <$> rs) in
  append_handlers os_path_join [handlers_legacy] filenames = targets
  ∧ script str_of_exn os_path_join w = process_targets str_of_exn targets w
  ∧ (rs = [] → targets = [handlers_legacy]).
Proof.
  intros Hdir rs targets.
  assert (append_handlers os_path_join [handlers_legacy] filenames = targets)
    as Happ by apply append_handlers_filter.
  split; [done |]. split.
  - unfold script, mbind, io_bind, os_listdir. by rewrite Hdir, Happ.
  - unfold targets. by intros ->.
Qed.

(** C1, as amended: on a content in which no occurrence of an old-token is
    immediately followed by a text that its new-token joins with ("tate."
    behind a new-token that ends with "s", "ate." behind one that ends with
    "st"), no old-token occurs in the output of the pass, a second pass
    changes nothing, and once the first run has written its result the
    second run of [process_file] prints "No changes in ..." and leaves the
    files as they are. *)
Theorem second_run_reports_no_changes p w f c :
  fs w !! p = Some (Reg f) →
  on_read f = Return c →
  on_write f = WriteOk →
  cascades c = false →
  let w1 := (process_file str_of_exn p w).2 in
  has_old_token (substitution_pass c) = false
  ∧ substitution_pass (substitution_pass c) = substitution_pass c
  ∧ read_outcome (fs w1) p = Return (substitution_pass c)
  ∧ process_file str_of_exn p w1 =
      (Return (), World (fs w1)
                    (trace w1 ++ [processing_line p; EvRead p; no_changes_line p])).
Proof.
  intros Hp Hr Hw Hc w1.
  destruct (substitute_any_order c replacements Hc (reflexivity _)) as [_ Hno].
  fold (substitution_pass c) in Hno.
  assert (substitution_pass (substitution_pass c) = substitution_pass c) as Hidem.
  { apply substitute_absent. by apply has_old_token_false. }
  assert (read_outcome (fs w) p = Return c) as Hread
    by by rewrite (read_outcome_reg _ _ f).
  assert (read_outcome (fs w1) p = Return (substitution_pass c)) as Hread1.
  { unfold w1. destruct (decide (substitution_pass c = c)) as [Heq|Hne].
    - rewrite (process_file_same p w c) by done. cbn [snd fs]. by rewrite Heq.
    - rewrite (process_file_changed p w c) by done. cbn zeta.
      unfold write_outcome. rewrite Hp, Hw. cbn [snd fs].
      unfold read_outcome. by rewrite lookup_insert_eq. }
  split; [done |]. split; [done |]. split; [done |].
  by apply (process_file_same p w1 (substitution_pass c)).
Qed.


End ScriptFacts.

(** ** The script on the example file system *)

Example script_on_example_world :
  script example_str_of_exn example_join example_world =
  (Return (),
   World
     (<[ example_join handlers_dir (lit "product.rs") :=
           Reg (File (Return (lit "let x = state.commerce.product.get();")) WriteOk) ]>
        example_files)
     [ not_found_line handlers_legacy;
       processing_line (example_join handlers_dir (lit "product.rs"));
       EvRead (example_join handlers_dir (lit "product.rs"));
       EvWrite (example_join handlers_dir (lit "product.rs"))
               (lit "let x = state.commerce.product.get();");
       updated_line (example_join handlers_dir (lit "product.rs"));
       processing_line (example_join handlers_dir (lit "binary.rs"));
       EvRead (example_join handlers_dir (lit "binary.rs"));
       error_line example_str_of_exn
         (example_join handlers_dir (lit "binary.rs")) example_invalid;
       processing_line (example_join handlers_dir (lit "locked.rs"));
       EvRead (example_join handlers_dir (lit "locked.rs"));
       EvWrite (example_join handlers_dir (lit "locked.rs"))
               (lit "let x = state.commerce.product.get();");
       error_line example_str_of_exn
         (example_join handlers_dir (lit "locked.rs"))
         (PermissionError (example_join handlers_dir (lit "locked.rs")));
       not_found_line (example_join handlers_dir (lit "gone.rs")) ]).
Proof. by vm_compute. Qed.

(** ** The theorems at the example file system *)

Lemma second_run_reports_no_changes_witness :
  let p := example_join handlers_dir (lit "product.rs") in
  let w1 := (process_file example_str_of_exn p example_world).2 in
  cascades example_content = false
  ∧ has_old_token (substitution_pass example_content) = false
  ∧ substitution_pass (substitution_pass example_content)
    = substitution_pass example_content
  ∧ read_outcome (fs w1) p = Return (substitution_pass example_content)
  ∧ process_file example_str_of_exn p w1 =
      (Return (), World (fs w1)
                    (trace w1 ++ [processing_line p; EvRead p; no_changes_line p])).
Proof.
  intros p w1. split; [by vm_compute |].
  apply (second_run_reports_no_changes example_str_of_exn p example_world
           (File (Return example_content) WriteOk) example_content);
    by vm_compute.
Defined.

Lemma order_is_irrelevant_witness :
  cascades example_content = false
  ∧ reverse replacements ≡ₚ replacements
  ∧ substitute (reverse replacements) example_content
    = substitute replacements example_content.
Proof.
  split; [by vm_compute |]. split; [apply reverse_Permutation |].
  apply (proj2 (proj2 order_is_irrelevant_without_cascade));
    [by vm_compute | apply reverse_Permutation].
Defined.


Lemma process_file_writes_iff_changed_witness :
  let p := example_join handlers_dir (lit "product.rs") in
  substitution_pass example_content ≠ example_content
  ∧ process_file example_str_of_exn p example_world =
      (Return (),
       World (<[p := Reg (File (Return (substitution_pass example_content)) WriteOk)]>
                example_files)
             [processing_line p; EvRead p;
              EvWrite p (substitution_pass example_content); updated_line p]).
Proof.
  intros p.
  assert (substitution_pass example_content ≠ example_content) as Hne
    by by vm_compute.
  split; [done |].
  apply (proj1 (proj2 (process_file_writes_iff_changed example_str_of_exn p
                         example_world (File (Return example_content) WriteOk)
                         example_content eq_refl eq_refl)) Hne eq_refl).
Defined.

Lemma process_file_without_old_token_witness :
  let p := lit "main.rs" in
  let c := lit "fn main() {}" in
  let w := World {[ p := Reg (File (Return c) WriteOk) ]} [] in
  substitution_pass c = c
  ∧ process_file example_str_of_exn p w =
      (Return (), World (fs w) [processing_line p; EvRead p; no_changes_line p]).
Proof.
  intros p c w.
  apply (process_file_without_old_token example_str_of_exn p w
           (File (Return c) WriteOk) c eq_refl eq_refl).
  intros old new Hin.
  pose proof (for_all_replacements (λ u _, negb (contains c u))
                ltac:(by vm_compute) old new Hin) as H.
  by apply negb_true_iff in H.
Defined.



Lemma targets_are_legacy_then_rs_entries_witness :
  let names := [lit "product.rs"; lit "notes.txt"; lit "binary.rs";
                lit "locked.rs"; lit "gone.rs"] in
  append_handlers example_join [handlers_legacy] names =
    [handlers_legacy;
     example_join handlers_dir (lit "product.rs");
     example_join handlers_dir (lit "binary.rs");
     example_join handlers_dir (lit "locked.rs");
     example_join handlers_dir (lit "gone.rs")]
  ∧ script example_str_of_exn example_join example_world =
      process_targets example_str_of_exn
        [handlers_legacy;
         example_join handlers_dir (lit "product.rs");
         example_join handlers_dir (lit "binary.rs");
         example_join handlers_dir (lit "locked.rs");
         example_join handlers_dir (lit "gone.rs")]
        example_world.
Proof.
  intros names.
  destruct (targets_are_legacy_then_rs_entries example_str_of_exn example_join
              names example_world eq_refl) as (H1 & H2 & _).
  split; [exact H1 | exact H2].
Defined.

Lemma read_failure_leaves_file_witness :
  let p := example_join handlers_dir (lit "binary.rs") in
  process_file example_str_of_exn p example_world =
    (Return (),
     World example_files
           [processing_line p; EvRead p;
            error_line example_str_of_exn p example_invalid]).
Proof.
  intros p.
  apply (proj1 (read_failure_leaves_file example_str_of_exn p example_world)
           example_invalid eq_refl).
Defined.

(** * Further properties *)

(** ** The substitution pass *)

(** The pass returns the content as it is exactly when no old-token occurs
    in it: a content that holds an old-token is always changed. *)
Theorem pass_unchanged_iff_no_old_token (c : str) :
  substitution_pass c = c ↔ has_old_token c = false.
Proof.
  split.
  - intros Hsame.
    destruct (first_token c) as [Hfree | (g & t & t' & rest & Hin & Hc & Hg)];
      [done | exfalso].
    destruct (substitute_across_old_any replacements g rest t t'
                (reflexivity _) Hin) as [z Hz].
    rewrite (substitute_absent replacements g) in Hz
      by by apply has_old_token_false.
    unfold substitution_pass in Hsame. rewrite Hc in Hsame at 1.
    rewrite Hz, Hc in Hsame. apply app_inv_head in Hsame.
    assert (t `prefix_of` t' ++ z) as Hp by (rewrite Hsame; by eexists).
    apply prefix_app_compat in Hp.
    by rewrite (old_new_differ t t' t t') in Hp.
  - intros Hfree. apply substitute_absent. by apply has_old_token_false.
Qed.

(** Every occurrence of an old-token in the content is rewritten into its
    new-token, which stands behind the rewritten text that precedes the
    occurrence, whatever follows. *)
Theorem every_old_token_is_rewritten (a r : str) t t' :
  (t, t') ∈ replacements →
  ∃ z, substitution_pass (a ++ t ++ r) = substitution_pass a ++ t' ++ z.
Proof.
  intros Hin. by apply (substitute_across_old_any replacements a r t t').
Qed.

(** A new-token that is already in the content is kept in place by the
    pass, whatever surrounds it. *)
Theorem new_token_is_kept (a r : str) t t' :
  (t, t') ∈ replacements →
  ∃ z, substitution_pass (a ++ t' ++ r) = substitution_pass a ++ t' ++ z.
Proof.
  intros Hin. by apply (substitute_across_new_any replacements a r t t').
Qed.

(** Around an occurrence of an old-token whose new-token does not join with
    the text that follows, the pass works on the three parts separately. *)
Theorem pass_is_local_at_old_token (a r : str) t t' :
  (t, t') ∈ replacements → joinable t' r = false →
  substitution_pass (a ++ t ++ r)
  = substitution_pass a ++ t' ++ substitution_pass r.
Proof.
  intros Hin Hj. by apply (substitute_across_old replacements a r t t').
Qed.

Lemma occurrence_across_holds (a b old : str) ch i :
  i < length a → length a < i + length old →
  startswith (drop i (a ++ ch :: b)) old = true → ch ∈ old.
Proof.
  intros Hi1 Hi2 Hs. apply startswith_prefix in Hs.
  rewrite drop_app_le in Hs by lia.
  apply prefix_app_longer in Hs as [_ Hd]; [|rewrite length_drop; lia].
  rewrite length_drop in Hd.
  assert (length (drop (length a - i) old) ≠ 0) as Hlen
    by (rewrite length_drop; lia).
  destruct (drop (length a - i) old) as [|d l] eqn:E; [done |].
  apply prefix_cons_inv_1 in Hd as ->.
  apply (subseteq_drop (length a - i) old). rewrite E. by left.
Qed.

Lemma replace_at_separator (a b old new : str) ch :
  old ≠ [] → ch ∉ old →
  replace (a ++ ch :: b) old new = replace a old new ++ ch :: replace b old new.
Proof.
  intros Hold Hch. rewrite replace_app_split; [|done |].
  - f_equal. apply replace_miss. destruct old as [|o old]; [done |].
    simpl. destruct (N.eqb_spec o ch) as [->|]; [|done].
    destruct Hch. by left.
  - intros i Hi1 Hi2.
    destruct (startswith (drop i (a ++ ch :: b)) old) eqn:E; [|done].
    destruct Hch. by apply (occurrence_across_holds a b old ch i).
Qed.

(** At a character that occurs in no old-token, such as a line break or a
    space, the pass works on the text before it and on the text behind it
    separately. *)
Theorem pass_splits_at_separator (a b : str) ch :
  (∀ old new, (old, new) ∈ replacements → ch ∉ old) →
  substitution_pass (a ++ ch :: b)
  = substitution_pass a ++ ch :: substitution_pass b.
Proof.
  unfold substitution_pass.
  assert (∀ old new, (old, new) ∈ replacements → old ≠ []) as Hne
    by apply old_token_nonempty.
  revert Hne. generalize replacements as table. intros table. revert a b.
  induction table as [|[u u'] table IH]; intros a b Hne Hch; [done |].
  rewrite !substitute_cons, replace_at_separator.
  - apply IH; intros old new Hin; [apply (Hne old new) | apply (Hch old new)];
      by right.
  - apply (Hne u u'). by left.
  - apply (Hch u u'). by left.
Qed.

(** The dict literal has no key twice, so it drops no pair; every pair
    changes its token; and no new-token holds an old-token, so a rewritten
    name on its own is not rewritten again. *)
Theorem table_is_well_formed :
  NoDup old_tokens
  ∧ (∀ t t', (t, t') ∈ replacements →
             t ≠ t' ∧ stem `prefix_of` t ∧ stem `prefix_of` t')
  ∧ (∀ u u' t t', (u, u') ∈ replacements → (t, t') ∈ replacements →
                  contains t' u = false).
Proof.
  split; [|split].
  - assert (check_keys = true) as Hc by by vm_compute.
    by apply bool_decide_eq_true in Hc.
  - intros t t' Hin. split; [|split].
    + intros ->. pose proof (old_new_differ t' t' t' t' Hin Hin) as Hc.
      unfold compat in Hc. apply orb_false_iff in Hc as [Hc _].
      rewrite <- (app_nil_r t') in Hc at 1. by rewrite startswith_app in Hc.
    + by apply (old_token_stem t t').
    + by apply (new_token_stem t t').
  - intros u u' t t' Hu Ht.
    assert (forallb (λ '(u, _),
              forallb (λ '(_, t'), negb (contains t' u)) replacements)
              replacements = true) as Hc by by vm_compute.
    apply (forallb_elem_of _ _ _ Hc) in Hu. cbv beta iota in Hu.
    apply (forallb_elem_of _ _ _ Hu) in Ht. cbv beta iota in Ht.
    by apply negb_true_iff in Ht.
Qed.

(** ** [process_file], the driver and the whole script *)

Section ScriptFurther.

Variable str_of_exn : exn → str.
Variable os_path_join : str → str → str.

Set Default Proof Using "Type".

Lemma write_outcome_directory (files : gmap (list N) node) (p data q : str) entries :
  files !! q = Some (Dir entries) → is_Some (files !! p) →
  (write_outcome files p data).2 !! q = Some (Dir entries).
Proof.
  intros Hq Hp. unfold write_outcome. destruct (decide (q = p)) as [->|Hne].
  - by rewrite Hq.
  - destruct (files !! p) as [[names|f]|]; [done | |];
      [destruct (on_write f) |]; simpl; by rewrite ?lookup_insert_ne.
Qed.

(** [process_file] neither creates nor removes a path, and leaves every
    directory as it is. *)
Theorem process_file_keeps_paths p w q :
  let w' := (process_file str_of_exn p w).2 in
  (is_Some (fs w' !! q) ↔ is_Some (fs w !! q))
  ∧ (∀ entries, fs w !! q = Some (Dir entries) → fs w' !! q = Some (Dir entries)).
Proof.
  intros w'. split; [apply process_file_exists |]. unfold w'.
  rewrite process_file_unfold. cbn zeta.
  destruct (read_outcome (fs w) p) as [c|e] eqn:Hr; [|done].
  case_bool_decide; [|done].
  intros entries Hq.
  pose proof (write_outcome_directory (fs w) p (substitution_pass c) q entries
                Hq (read_outcome_exists _ _ _ Hr)) as Hw.
  by destruct (write_outcome _ _ _) as [[[]|] ?].
Qed.

(** When the handlers directory is missing or is a regular file,
    [os.listdir] raises out of the script before anything is printed or
    processed: the legacy file is not processed either. *)
Theorem script_raises_without_directory w :
  (fs w !! handlers_dir = None →
   script str_of_exn os_path_join w = (Raise (FileNotFoundError handlers_dir), w))
  ∧ (∀ f, fs w !! handlers_dir = Some (Reg f) →
          script str_of_exn os_path_join w
          = (Raise (NotADirectoryError handlers_dir), w)).
Proof.
  unfold script, mbind, io_bind, os_listdir. split.
  - by intros ->.
  - by intros f ->.
Qed.

Lemma process_file_opens p w :
  ∃ evs, trace (process_file str_of_exn p w).2 = trace w ++ evs
         ∧ (∀ q, EvRead q ∈ evs → q = p)
         ∧ (∀ q data, EvWrite q data ∈ evs → q = p).
Proof.
  clear os_path_join.
  rewrite process_file_unfold. cbn zeta.
  destruct (read_outcome (fs w) p) as [c|e];
    [case_bool_decide;
     [destruct (write_outcome _ _ _) as [[[]|e] files] |] |];
    cbn [snd trace]; rewrite <- app_assoc; eexists; (split; [done |]);
    split; intros q; [| intros data | | intros data | | intros data | | intros data];
    intros Hin; apply list_elem_of_In in Hin; simpl in Hin;
    unfold processing_line, updated_line, no_changes_line, error_line in Hin;
    repeat (destruct Hin as [Hin|Hin]; [congruence |]); done.
Qed.

Lemma process_targets_opens ts w :
  ∃ evs, trace (process_targets str_of_exn ts w).2 = trace w ++ evs
         ∧ (∀ q, EvRead q ∈ evs → q ∈ ts)
         ∧ (∀ q data, EvWrite q data ∈ evs → q ∈ ts).
Proof.
  revert w. induction ts as [|t ts IH]; intros w.
  { exists []. rewrite process_targets_nil, app_nil_r.
    split; [done |]. split; intros; by apply elem_of_nil in H. }
  rewrite process_targets_cons. case_bool_decide.
  - destruct (process_file_opens t w) as (evs1 & Htr1 & Hr1 & Hw1).
    destruct (IH (process_file str_of_exn t w).2) as (evs2 & Htr2 & Hr2 & Hw2).
    exists (evs1 ++ evs2). rewrite Htr2, Htr1, <- app_assoc.
    split; [done |]. split.
    + intros q Hin. apply elem_of_app in Hin as [Hin|Hin].
      * apply Hr1 in Hin as ->. by left.
      * right. by apply Hr2.
    + intros q data Hin. apply elem_of_app in Hin as [Hin|Hin].
      * apply Hw1 in Hin as ->. by left.
      * right. by apply (Hw2 q data).
  - destruct (IH (World (fs w) (trace w ++ [not_found_line t])))
      as (evs2 & Htr2 & Hr2 & Hw2).
    exists (not_found_line t :: evs2). rewrite Htr2. cbn [trace].
    rewrite <- app_assoc. split; [done |]. split.
    + intros q Hin. apply elem_of_cons in Hin as [Hin|Hin]; [done |].
      right. by apply Hr2.
    + intros q data Hin. apply elem_of_cons in Hin as [Hin|Hin]; [done |].
      right. by apply (Hw2 q data).
Qed.

(** When the handlers directory can be listed, every file that a run of the
    script opens, for reading or for writing, is at a path of its target
    list, and the run neither creates nor removes a path. *)
Theorem script_opens_only_targets names w :
  fs w !! handlers_dir = Some (Dir names) →
  let w' := (script str_of_exn os_path_join w).2 in
  let targets := append_handlers os_path_join [handlers_legacy] names in
  (∃ evs, trace w' = trace w ++ evs
          ∧ (∀ q, EvRead q ∈ evs → q ∈ targets)
          ∧ (∀ q data, EvWrite q data ∈ evs → q ∈ targets))
  ∧ (∀ q, is_Some (fs w' !! q) ↔ is_Some (fs w !! q)).
Proof.
  intros Hdir w' targets. unfold w', script, mbind, io_bind, os_listdir.
  rewrite Hdir. split.
  - apply process_targets_opens.
  - intros q. apply process_targets_exists.
Qed.

(** A call of [process_file] prints "Processing ...", reads the file once,
    writes it at most once, and prints exactly one more line: "Updated",
    "No changes in" or "Error processing". *)
Theorem process_file_events p w :
  ∃ writes status,
    trace (process_file str_of_exn p w).2
    = trace w ++ [processing_line p; EvRead p] ++ writes ++ [status]
    ∧ (writes = [] ∨ ∃ data, writes = [EvWrite p data])
    ∧ (status = updated_line p ∨ status = no_changes_line p
       ∨ ∃ e, status = error_line str_of_exn p e).
Proof.
  rewrite process_file_unfold. cbn zeta.
  destruct (read_outcome (fs w) p) as [c|e].
  - case_bool_decide.
    + destruct (write_outcome _ _ _) as [[[]|e] files]; cbn [snd trace];
        exists [EvWrite p (substitution_pass c)]; eexists;
        (split; [by rewrite <- !app_assoc |]); (split; [by right; eexists |]).
      * by left.
      * right. right. by eexists.
    + exists []. eexists. cbn [snd trace].
      split; [by rewrite <- !app_assoc |]. split; [by left |]. right. by left.
  - exists []. eexists. cbn [snd trace].
    split; [by rewrite <- !app_assoc |]. split; [by left |].
    right. right. by eexists.
Qed.

Lemma console_process_file p w :
  length (console (trace (process_file str_of_exn p w).2))
  = length (console (trace w)) + 2.
Proof.
  rewrite process_file_unfold. cbn zeta. unfold console.
  destruct (read_outcome (fs w) p) as [c|e].
  - case_bool_decide.
    + destruct (write_outcome _ _ _) as [[[]|e] files]; cbn [snd trace];
        rewrite !omap_app, !length_app; simpl; lia.
    + cbn [snd trace]. rewrite !omap_app, !length_app. simpl. lia.
  - cbn [snd trace]. rewrite !omap_app, !length_app. simpl. lia.
Qed.

(** The driver prints two lines for every target that exists when it starts
    and one line for every target that does not. *)
Theorem driver_line_count ts w :
  length (console (trace (process_targets str_of_exn ts w).2))
  = length (console (trace w))
    + 2 * length (filter (λ t, is_Some (fs w !! t)) ts)
    + length (filter (λ t, ¬ is_Some (fs w !! t)) ts).
Proof.
  clear os_path_join.
  revert w. induction ts as [|t ts IH]; intros w.
  { rewrite process_targets_nil. simpl. lia. }
  rewrite process_targets_cons, IH. case_bool_decide as Ht.
  - rewrite (filter_cons_True _ t) by done.
    rewrite (filter_cons_False _ t) by tauto.
    rewrite console_process_file.
    rewrite (list_filter_iff (λ t0, is_Some (fs (process_file str_of_exn t w).2 !! t0))
               (λ t0, is_Some (fs w !! t0)))
      by (intros x; apply process_file_exists).
    rewrite (list_filter_iff (λ t0, ¬ is_Some (fs (process_file str_of_exn t w).2 !! t0))
               (λ t0, ¬ is_Some (fs w !! t0)))
      by (intros x; by rewrite process_file_exists).
    simpl. lia.
  - rewrite (filter_cons_False _ t) by done.
    rewrite (filter_cons_True _ t) by done.
    cbn [fs trace]. unfold console. rewrite omap_app, length_app. simpl. lia.
Qed.

(** A file that can be read and written and that holds an old-token is
    always rewritten: it gets the content of the pass, which differs from
    the original, and "Updated" is printed. *)
Theorem file_with_old_token_is_updated p w f c :
  fs w !! p = Some (Reg f) →
  on_read f = Return c →
  on_write f = WriteOk →
  has_old_token c = true →
  substitution_pass c ≠ c
  ∧ process_file str_of_exn p w =
      (Return (),
       World (<[p := Reg (File (Return (substitution_pass c)) WriteOk)]> (fs w))
             (trace w ++ [processing_line p; EvRead p;
                          EvWrite p (substitution_pass c); updated_line p])).
Proof.
  intros Hp Hr Hw Htok.
  assert (substitution_pass c ≠ c) as Hne.
  { intros Hsame.
    destruct (first_token c) as [Hfree | (g & t & t' & rest & Hin & Hc & Hg)];
      [congruence |].
    destruct (substitute_across_old_any replacements g rest t t'
                (reflexivity _) Hin) as [z Hz].
    rewrite (substitute_absent replacements g) in Hz
      by by apply has_old_token_false.
    unfold substitution_pass in Hsame. rewrite Hc in Hsame at 1.
    rewrite Hz, Hc in Hsame. apply app_inv_head in Hsame.
    assert (t `prefix_of` t' ++ z) as Hpre by (rewrite Hsame; by eexists).
    apply prefix_app_compat in Hpre.
    by rewrite (old_new_differ t t' t t') in Hpre. }
  split; [done |].
  rewrite (process_file_changed str_of_exn p w c);
    [|by rewrite (read_outcome_reg _ _ f) | done].
  cbn zeta. unfold write_outcome. rewrite Hp, Hw. by rewrite <- app_assoc.
Qed.

(** A write that fails is not undone: when opening for writing fails the
    file is as before, and when the write fails after the truncating open
    the file is left with what the failed write put there; either way the
    error is printed and the call returns. *)
Theorem failed_write_is_not_rolled_back p w f c :
  fs w !! p = Some (Reg f) →
  on_read f = Return c →
  substitution_pass c ≠ c →
  let tr := trace w ++ [processing_line p; EvRead p;
                        EvWrite p (substitution_pass c)] in
  (∀ e, on_write f = OpenFails e →
        process_file str_of_exn p w =
          (Return (), World (fs w) (tr ++ [error_line str_of_exn p e])))
  ∧ (∀ e remains, on_write f = WriteFails e remains →
        process_file str_of_exn p w =
          (Return (),
           World (<[p := Reg (File (Return remains) (WriteFails e remains))]> (fs w))
                 (tr ++ [error_line str_of_exn p e]))).
Proof.
  intros Hp Hr Hne tr.
  assert (read_outcome (fs w) p = Return c) as Hread
    by by rewrite (read_outcome_reg _ _ f).
  split.
  - intros e Hw. rewrite (process_file_changed str_of_exn p w c) by done.
    cbn zeta. unfold write_outcome. by rewrite Hp, Hw.
  - intros e remains Hw. rewrite (process_file_changed str_of_exn p w c) by done.
    cbn zeta. unfold write_outcome. by rewrite Hp, Hw.
Qed.

End ScriptFurther.

(** ** The further properties at examples *)

Lemma every_old_token_is_rewritten_witness :
  ∃ z, substitution_pass
         (lit "a = " ++ lit "state.tax_service" ++ lit "tate.sms_service;")
       = substitution_pass (lit "a = ") ++ lit "state.commerce.taxes" ++ z.
Proof.
  apply every_old_token_is_rewritten.
  apply list_elem_of_lookup. by exists 7.
Defined.

Lemma new_token_is_kept_witness :
  ∃ z, substitution_pass
         (lit "a = " ++ lit "state.commerce.taxes" ++ lit "tate.sms_service;")
       = substitution_pass (lit "a = ") ++ lit "state.commerce.taxes" ++ z.
Proof.
  apply (new_token_is_kept _ _ (lit "state.tax_service")).
  apply list_elem_of_lookup. by exists 7.
Defined.

Lemma pass_is_local_at_old_token_witness :
  substitution_pass
    (lit "f(state.sms_service, " ++ lit "state.tax_service" ++ lit ".rate())")
  = substitution_pass (lit "f(state.sms_service, ")
    ++ lit "state.commerce.taxes" ++ substitution_pass (lit ".rate())").
Proof.
  apply pass_is_local_at_old_token.
  - apply list_elem_of_lookup. by exists 7.
  - by vm_compute.
Defined.

Lemma pass_splits_at_separator_witness :
  substitution_pass (lit "state.holds_service" ++ 10%N :: lit "tate.sms_service")
  = substitution_pass (lit "state.holds_service")
    ++ 10%N :: substitution_pass (lit "tate.sms_service").
Proof.
  apply pass_splits_at_separator. intros old new Hin.
  pose proof (for_all_replacements (λ u _, bool_decide (10%N ∉ u))
                ltac:(by vm_compute) old new Hin) as H.
  by apply bool_decide_eq_true in H.
Defined.

Lemma script_raises_without_directory_witness :
  script example_str_of_exn example_join (World ∅ [])
  = (Raise (FileNotFoundError handlers_dir), World ∅ []).
Proof.
  apply (proj1 (script_raises_without_directory example_str_of_exn
                  example_join (World ∅ []))).
  reflexivity.
Defined.

Lemma script_opens_only_targets_witness :
  let names := [lit "product.rs"; lit "notes.txt"; lit "binary.rs";
                lit "locked.rs"; lit "gone.rs"] in
  let w' := (script example_str_of_exn example_join example_world).2 in
  let targets := append_handlers example_join [handlers_legacy] names in
  (∃ evs, trace w' = trace example_world ++ evs
          ∧ (∀ q, EvRead q ∈ evs → q ∈ targets)
          ∧ (∀ q data, EvWrite q data ∈ evs → q ∈ targets))
  ∧ (∀ q, is_Some (fs w' !! q) ↔ is_Some (fs example_world !! q)).
Proof.
  intros names.
  apply (script_opens_only_targets example_str_of_exn example_join names
           example_world eq_refl).
Defined.

Lemma file_with_old_token_is_updated_witness :
  let p := example_join handlers_dir (lit "product.rs") in
  substitution_pass example_content ≠ example_content
  ∧ process_file example_str_of_exn p example_world =
      (Return (),
       World (<[p := Reg (File (Return (substitution_pass example_content)) WriteOk)]>
                example_files)
             [processing_line p; EvRead p;
              EvWrite p (substitution_pass example_content); updated_line p]).
Proof.
  intros p.
  apply (file_with_old_token_is_updated example_str_of_exn p example_world
           (File (Return example_content) WriteOk) example_content);
    by vm_compute.
Defined.

Lemma failed_write_is_not_rolled_back_witness :
  let p := lit "half.rs" in
  let e := OSError (lit "[Errno 28] No space left on device") in
  let w := World {[ p := Reg (File (Return example_content)
                                   (WriteFails e (lit "let x = "))) ]} [] in
  process_file example_str_of_exn p w =
    (Return (),
     World {[ p := Reg (File (Return (lit "let x = "))
                             (WriteFails e (lit "let x = "))) ]}
           [processing_line p; EvRead p;
            EvWrite p (substitution_pass example_content);
            error_line example_str_of_exn p e]).
Proof.
  intros p e w.
  assert (substitution_pass example_content ≠ example_content) as Hne
    by by vm_compute.
  rewrite (proj2 (failed_write_is_not_rolled_back example_str_of_exn p w
                    (File (Return example_content) (WriteFails e (lit "let x = ")))
                    example_content eq_refl eq_refl Hne)
             e (lit "let x = ") eq_refl).
  by vm_compute.
Defined.
